(** * The band recommendation pipeline of [Analysis/recommendation2.py]

    A shallow embedding of the scoring pipeline: genre-overlap filtering,
    the in-place similarity column update, the aggregation of crowd
    similarity edges, min-max normalisation, the weighted total and the
    top-10 selection.

    Conventions of the model.
    - A pandas [float64] cell is an [fval]: an exact rational, a signed
      infinity or NaN.  Rounding, overflow and signed zeros are outside the
      model; the NaN and infinity rules of IEEE 754 arithmetic are kept,
      since they decide what a division by zero produces.  The statements
      below use the arithmetic only where [float64] is exact: on NaN, on
      the difference of equal values and on the division by zero.
    - A [DataFrame] is an ordered list of column names and a list of rows,
      each row a finite map from column name to cell.
    - A Python exception is a value of [exn] carried by the [result] sum.
    - The order that numpy's quicksort leaves among rows of equal value is
      not fixed by pandas: it is an argument [ties] of the model, and
      every statement holds for every such order. *)

From Stdlib Require Import QArith Qminmax Lqa Ascii.
From stdpp Require Import gmap strings list sorting.

Open Scope string_scope.

(** ** Floating-point cells *)

Inductive fval : Type :=
| Num (q : Q)
| Inf (positive : bool)
| NaN.

Definition Qltb (a b : Q) : bool := negb (Qle_bool b a).

(** IEEE comparisons: every comparison with NaN is false. *)
Definition fleb (a b : fval) : bool :=
  match a, b with
  | NaN, _ | _, NaN => false
  | Inf false, _ => true
  | _, Inf true => true
  | Num x, Num y => Qle_bool x y
  | _, _ => false
  end.

Definition fltb (a b : fval) : bool :=
  match a, b with
  | NaN, _ | _, NaN => false
  | Inf false, Inf false => false
  | Inf true, Inf true => false
  | Inf false, _ => true
  | _, Inf true => true
  | Num x, Num y => Qltb x y
  | _, _ => false
  end.

Definition fneg (a : fval) : fval :=
  match a with
  | Num x => Num (- x)
  | Inf p => Inf (negb p)
  | NaN => NaN
  end.

Definition fadd (a b : fval) : fval :=
  match a, b with
  | NaN, _ | _, NaN => NaN
  | Inf p, Inf q => if Bool.eqb p q then Inf p else NaN
  | Inf p, Num _ => Inf p
  | Num _, Inf q => Inf q
  | Num x, Num y => Num (x + y)
  end.

Definition fsub (a b : fval) : fval := fadd a (fneg b).

Definition fmul (a b : fval) : fval :=
  match a, b with
  | NaN, _ | _, NaN => NaN
  | Inf p, Inf q => Inf (Bool.eqb p q)
  | Inf p, Num y =>
      if Qeq_bool y 0 then NaN else Inf (Bool.eqb p (Qltb 0 y))
  | Num x, Inf q =>
      if Qeq_bool x 0 then NaN else Inf (Bool.eqb q (Qltb 0 x))
  | Num x, Num y => Num (x * y)
  end.

(** Division as numpy performs it on [float64]: [0/0] is NaN and [x/0] is
    an infinity; no exception is raised. *)
Definition fdiv (a b : fval) : fval :=
  match a, b with
  | NaN, _ | _, NaN => NaN
  | Inf _, Inf _ => NaN
  | Inf p, Num y => Inf (Bool.eqb p (Qle_bool 0 y))
  | Num _, Inf _ => Num 0
  | Num x, Num y =>
      if Qeq_bool y 0
      then (if Qeq_bool x 0 then NaN else Inf (Qltb 0 x))
      else Num (x / y)
  end.

(** ** Series reductions

    [Series.min] and [Series.max] skip NaN ([skipna=True]); they are NaN
    only when no entry is present. *)

Definition fmin2 (a b : fval) : fval :=
  match a, b with
  | NaN, _ => b
  | _, NaN => a
  | _, _ => if fleb a b then a else b
  end.

Definition fmax2 (a b : fval) : fval :=
  match a, b with
  | NaN, _ => b
  | _, NaN => a
  | _, _ => if fleb b a then a else b
  end.

Definition series_min (s : list fval) : fval := foldr fmin2 NaN s.
Definition series_max (s : list fval) : fval := foldr fmax2 NaN s.

(** [normalize_score]: [(series - series.min()) / (series.max() - series.min())]. *)
Definition normalize_score (series : list fval) : list fval :=
  let lo := series_min series in
  let hi := series_max series in
  (fun x => fdiv (fsub x lo) (fsub hi lo)) <$> series.

(** The weighted total of line 148, one row at a time. *)
Definition total_score (lyrical_weight similar_weight genre_weight country_weight : fval)
    (themes similar genre country : fval) : fval :=
  fadd (fadd (fadd (fmul lyrical_weight themes) (fmul similar_weight similar))
             (fmul genre_weight genre))
       (fmul country_weight country).

(** A value is present when it is not NaN, finite when it is a rational. *)
Definition is_nan (a : fval) : bool :=
  match a with NaN => true | _ => false end.

Definition fval_in_unit (a : fval) : Prop :=
  match a with
  | Num q => (0 <= q)%Q /\ (q <= 1)%Q
  | _ => False
  end.

(** ** Exceptions *)

Inductive exn : Type :=
| KeyError (label : string)
| IndexError
| ValueError
| TypeError
| ZeroDivisionError
| AttributeError.

Inductive result (A : Type) : Type :=
| Ok (a : A)
| Raise (e : exn).
Arguments Ok {A} a.
Arguments Raise {A} e.

#[global] Instance result_ret : MRet result := fun A a => Ok a.
#[global] Instance result_bind : MBind result := fun A B f m =>
  match m with
  | Ok a => f a
  | Raise e => Raise e
  end.

Definition of_option {A : Type} (e : exn) (o : option A) : result A :=
  match o with
  | Some a => Ok a
  | None => Raise e
  end.

(** ** Data frames *)

Inductive cell : Type :=
| CInt (z : Z)
| CFloat (v : fval)
| CStr (s : string)
| CTags (tags : list string).

Record DataFrame : Type := mkFrame {
  columns : list string;
  rows : list (gmap string cell)
}.

(** [pd.DataFrame()]: no column and no row. *)
Definition empty_frame : DataFrame := mkFrame [] [].

(** [df.empty]: some axis has length 0. *)
Definition frame_empty (df : DataFrame) : bool :=
  match columns df, rows df with
  | [], _ | _, [] => true
  | _, _ => false
  end.

(** [df[label]]: a KeyError when the label is not a column. *)
Definition get_column (df : DataFrame) (label : string) : result (list cell) :=
  if decide (label ∈ columns df)
  then of_option (KeyError label) (mapM (fun r : gmap string cell => r !! label) (rows df))
  else Raise (KeyError label).

(** [df[label] = values]: an existing column is overwritten where it
    stands, a new one is appended; a ValueError when the lengths differ. *)
Definition set_column (df : DataFrame) (label : string) (values : list cell)
    : result DataFrame :=
  if decide (length values = length (rows df))
  then Ok (mkFrame
             (if decide (label ∈ columns df) then columns df
              else columns df ++ [label])
             (zip_with (fun (r : gmap string cell) v => <[label := v]> r)
                       (rows df) values))
  else Raise ValueError.

(** [df.drop(columns=labels)]: a KeyError when a label is not a column. *)
Definition drop (df : DataFrame) (labels : list string) : result DataFrame :=
  match list_find (fun c => c ∉ columns df) labels with
  | Some (_, c) => Raise (KeyError c)
  | None =>
      Ok (mkFrame
            (filter (fun c => c ∉ labels) (columns df))
            ((fun r : gmap string cell => foldr delete r labels) <$> rows df))
  end.

(** A numeric column read as floats. *)
Definition cell_float (c : cell) : result fval :=
  match c with
  | CFloat v => Ok v
  | CInt z => Ok (Num (inject_Z z))
  | _ => Raise TypeError
  end.

Fixpoint collect {A B : Type} (f : A -> result B) (l : list A) : result (list B) :=
  match l with
  | [] => Ok []
  | a :: l' => b ← f a; bs ← collect f l'; Ok (b :: bs)
  end.

Definition get_floats (df : DataFrame) (label : string) : result (list fval) :=
  cells ← get_column df label; collect cell_float cells.

(** [cell == band_id] for an integer identifier. *)
Definition cell_eq_int (c : cell) (z : Z) : bool :=
  match c with
  | CInt x => (x =? z)%Z
  | CFloat (Num q) => Qeq_bool q (inject_Z z)
  | _ => false
  end.

Definition row_has_id (band_id : Z) (r : gmap string cell) : bool :=
  match r !! "Band ID" with
  | Some c => cell_eq_int c band_id
  | None => false
  end.

(** ** Genre overlap filter *)

(** Modelled from the spec: the type of a 'Processed Genre' cell.
    [process_genres] (module CleanGenre) is not part of the sources; the
    data model gives each band a set of processed genre tags, stored here
    as a list of strings.  A cell of another kind is rejected with a
    TypeError. *)
Definition row_tags (r : gmap string cell) : option (list string) :=
  match r !! "Processed Genre" with
  | Some (CTags tags) => Some tags
  | _ => None
  end.

(** [any(band_genre in genres for band_genre in band_genres)] *)
Definition genre_overlap (band_genres genres : list string) : bool :=
  existsb (fun band_genre => bool_decide (band_genre ∈ genres)) band_genres.

Definition row_overlaps (band_genres : list string) (r : gmap string cell) : bool :=
  match row_tags r with
  | Some genres => genre_overlap band_genres genres
  | None => false
  end.

(** [filter_by_genre_overlap].  Row positions are the index of the result
    ([reset_index(drop=True)]). *)
Definition filter_by_genre_overlap (merged_df : DataFrame) (band_id : Z)
    : result DataFrame :=
  _ ← get_column merged_df "Band ID";
  match filter (fun r => row_has_id band_id r) (rows merged_df) with
  | [] => Ok empty_frame
  | band_info :: _ =>
      _ ← get_column merged_df "Processed Genre";
      band_genres ← of_option TypeError (row_tags band_info);
      _ ← of_option TypeError (mapM row_tags (rows merged_df));
      Ok (mkFrame (columns merged_df)
            (filter (fun r => row_overlaps band_genres r) (rows merged_df)))
  end.

(** ** Crowd similarity aggregator *)

Record edge : Type := mkEdge {
  edge_band : Z;        (* 'Band ID' *)
  edge_similar : Z;     (* 'Similar Artist ID' *)
  edge_score : Q        (* 'Score' *)
}.

(** [groupby('Similar Artist ID').agg({'Score': 'max'})]: one row per
    key, keys ascending. *)
Definition max_into (v : Q) (o : option Q) : option Q :=
  match o with
  | Some w => Some (Qmax w v)
  | None => Some v
  end.

Definition group_max (pairs : list (Z * Q)) : gmap Z Q :=
  foldr (fun p m => partial_alter (max_into p.2) p.1 m) ∅ pairs.

Definition key_le (a b : Z * Q) : Prop := (a.1 <= b.1)%Z.
Definition score_ge (a b : Z * Q) : Prop := Qle_bool b.2 a.2 = true.

#[global] Instance key_le_dec a b : Decision (key_le a b).
Proof. unfold key_le. apply _. Defined.
#[global] Instance score_ge_dec a b : Decision (score_ge a b).
Proof. unfold score_ge. apply _. Defined.

Definition groupby_max (pairs : list (Z * Q)) : list (Z * Q) :=
  merge_sort key_le (map_to_list (group_max pairs)).

(** [aggregate_similar_bands]: the order among equal scores after
    [sort_values] is left open by pandas; nothing below depends on it. *)
Definition aggregate_similar_bands (filtered_df : list (Z * Q)) : list (Z * Q) :=
  merge_sort score_ge (groupby_max filtered_df).

Definition get_complete_similar_bands (similar_artists_df : list edge) (band_id : Z)
    : list (Z * Q) :=
  let filtered_similar_bands :=
    filter (fun e => edge_band e = band_id \/ edge_similar e = band_id)
           similar_artists_df in
  let bands_listing_original :=
    filter (fun e => edge_similar e = band_id) similar_artists_df in
  let complete_bands :=
    (((fun e => (edge_similar e, edge_score e)) <$> filtered_similar_bands) ++
     ((fun e => (edge_band e, edge_score e)) <$> bands_listing_original))%list in
  aggregate_similar_bands complete_bands.

(** [set_index('Similar Artist ID').reindex(labels, fill_value=0)['Score']],
    one label at a time. *)
Definition reindex_score (similar_bands_df : list (Z * Q)) (label : cell) : fval :=
  match List.find (fun p : Z * Q => cell_eq_int label p.1) similar_bands_df with
  | Some p => Num p.2
  | None => Num 0
  end.

Definition similar_band_score (similar_bands_df : list (Z * Q)) (ids : list cell)
    : list cell :=
  (fun label => CFloat (reindex_score similar_bands_df label)) <$> ids.

(** ** Top-n selection *)

(** [ranks_above a b]: [a] is placed strictly before [b] by [nlargest];
    a NaN is placed after every present value. *)
Definition ranks_above (a b : fval) : bool :=
  if is_nan b then negb (is_nan a) else fltb b a.

Fixpoint insert_desc {A : Type} (key : A -> fval) (x : A) (l : list A) : list A :=
  match l with
  | [] => [x]
  | y :: l' =>
      if ranks_above (key y) (key x) then y :: insert_desc key x l'
      else x :: y :: l'
  end.

(** Descending order, rows of equal rank in their original order: the
    selection of [nlargest] on a table of more than [n] rows (a mergesort
    of the negated values, the rows without a value appended). *)
Definition sort_desc {A : Type} (key : A -> fval) (l : list A) : list A :=
  foldr (insert_desc key) [] l.

(** [sort_values(ascending=False)], to which [nlargest] falls back on a
    table of at most [n] rows: a quicksort of the present values, the rows
    without a value appended in table order.  Quicksort is not stable:
    [ties y x] tells whether row [y] ends before a row [x] of equal value
    that stands above it in the table. *)
Fixpoint insert_ties {A : Type} (ties : A -> A -> bool) (key : A -> fval)
    (x : A) (l : list A) : list A :=
  match l with
  | [] => [x]
  | y :: l' =>
      if ranks_above (key y) (key x)
         || (negb (ranks_above (key x) (key y)) && ties y x)
      then y :: insert_ties ties key x l'
      else x :: y :: l'
  end.

Definition sort_values_desc {A : Type} (ties : A -> A -> bool) (key : A -> fval)
    (l : list A) : list A :=
  (foldr (insert_ties ties key) [] (filter (fun x => is_nan (key x) = false) l) ++
   filter (fun x => is_nan (key x) = true) l)%list.

(** The rows that [nlargest] selects: [if n >= len(self.obj)] the head of
    the sorted table, otherwise the stable selection. *)
Definition nlargest_rows {A : Type} (ties : A -> A -> bool) (key : A -> fval)
    (n : nat) (l : list A) : list A :=
  if decide (length l <= n) then take n (sort_values_desc ties key l)
  else take n (sort_desc key l).

Definition row_float (label : string) (r : gmap string cell) : fval :=
  match r !! label with
  | Some (CFloat v) => v
  | Some (CInt z) => Num (inject_Z z)
  | _ => NaN
  end.

(** [df.nlargest(n, label)] with the default [keep='first']. *)
Definition nlargest (ties : gmap string cell -> gmap string cell -> bool)
    (n : nat) (label : string) (df : DataFrame) : result DataFrame :=
  _ ← get_floats df label;
  Ok (mkFrame (columns df) (nlargest_rows ties (row_float label) n (rows df))).

(** Lines 157-158: drop the target, keep the ten best totals. *)
Definition recommended_bands (ties : gmap string cell -> gmap string cell -> bool)
    (overlap_bands_df : DataFrame) (band_id : Z) : result DataFrame :=
  _ ← get_column overlap_bands_df "Band ID";
  nlargest ties 10 "Total_Score"
    (mkFrame (columns overlap_bands_df)
       (filter (fun r => row_has_id band_id r = false) (rows overlap_bands_df))).

(** ** The pipeline *)

Section pipeline.

(** The text similarity engine of scikit-learn (TfidfVectorizer,
    TruncatedSVD, cosine_similarity): from the texts of a column to the
    matrix of pairwise cosine similarities, or the exception it raises. *)
Variable cosine_similarity_matrix : list cell -> result (list (list fval)).

(** [add_geographic_similarity_to_band] (module Cleancountry) is not part
    of the sources: it returns the table with a 'Country_Similarity'
    column. *)
Variable add_geographic_similarity_to_band : DataFrame -> Z -> result DataFrame.

(** The order that the sort of [nlargest] leaves among rows of equal
    total. *)
Variable ties : gmap string cell -> gmap string cell -> bool.

(** [calculate_similarity]: the table after the call and the returned
    scores ([None] when the table is empty). *)
Definition calculate_similarity (overlap_bands_df : DataFrame) (band_id : Z)
    (column : string) : result (DataFrame * option (list fval)) :=
  if frame_empty overlap_bands_df then Ok (overlap_bands_df, None)
  else
    texts ← get_column overlap_bands_df column;
    cosine_sim_matrix ← cosine_similarity_matrix texts;
    _ ← get_column overlap_bands_df "Band ID";
    band_idx ← of_option IndexError
      (fst <$> list_find (fun r => row_has_id band_id r = true) (rows overlap_bands_df));
    similarity_scores ← of_option IndexError (cosine_sim_matrix !! band_idx);
    df ← set_column overlap_bands_df (column +:+ "_Similarity")
           (CFloat <$> similarity_scores);
    df ← (if decide (column ∈ columns df) then drop df [column] else Ok df);
    Ok (df, Some similarity_scores).

Definition normalize_column (df : DataFrame) (label : string) : result DataFrame :=
  series ← get_floats df label;
  set_column df label (CFloat <$> normalize_score series).

(** [normalize_score] on a column of dtype object, whose cells are Python
    numbers: the division is Python's, which raises ZeroDivisionError on a
    zero divisor where a float column yields NaN. *)
Definition normalize_object_column (df : DataFrame) (label : string)
    : result DataFrame :=
  series ← get_floats df label;
  match series, fsub (series_max series) (series_min series) with
  | _ :: _, Num d =>
      if Qeq_bool d 0 then Raise ZeroDivisionError
      else set_column df label (CFloat <$> normalize_score series)
  | _, _ => set_column df label (CFloat <$> normalize_score series)
  end.

Fixpoint total_scores (lw sw gw cw : fval) (themes similar genre country : list fval)
    : list fval :=
  match themes, similar, genre, country with
  | t :: themes', s :: similar', g :: genre', c :: country' =>
      total_score lw sw gw cw t s g c ::
      total_scores lw sw gw cw themes' similar' genre' country'
  | _, _, _, _ => []
  end.

(** [get_recommendations], from the merged table that [preproc_data]
    returns and the similarity edges.  A similarity table without rows is
    read from its file with columns of dtype object, and the score column
    joined from it is of dtype object as well. *)
Definition get_recommendations (merged_df : DataFrame) (similar_artists_df : list edge)
    (band_id : Z) (genre_weight lyrical_weight similar_weight country_weight : Q)
    : result DataFrame :=
  let similar_bands_df := get_complete_similar_bands similar_artists_df band_id in
  overlap_bands_df ← filter_by_genre_overlap merged_df band_id;
  overlap_bands_df ← drop overlap_bands_df ["Processed Genre"];
  '(overlap_bands_df, _) ← calculate_similarity overlap_bands_df band_id "Genre";
  '(overlap_bands_df, _) ← calculate_similarity overlap_bands_df band_id "Themes:";
  ids ← get_column overlap_bands_df "Band ID";
  overlap_bands_df ← set_column overlap_bands_df "Similar_Band_Score"
                       (similar_band_score similar_bands_df ids);
  overlap_bands_df ← add_geographic_similarity_to_band overlap_bands_df band_id;
  overlap_bands_df ← normalize_column overlap_bands_df "Themes:_Similarity";
  overlap_bands_df ← normalize_column overlap_bands_df "Genre_Similarity";
  overlap_bands_df ←
    match similar_artists_df with
    | [] => normalize_object_column overlap_bands_df "Similar_Band_Score"
    | _ :: _ => normalize_column overlap_bands_df "Similar_Band_Score"
    end;
  overlap_bands_df ← normalize_column overlap_bands_df "Country_Similarity";
  themes ← get_floats overlap_bands_df "Themes:_Similarity";
  similar ← get_floats overlap_bands_df "Similar_Band_Score";
  genre ← get_floats overlap_bands_df "Genre_Similarity";
  country ← get_floats overlap_bands_df "Country_Similarity";
  overlap_bands_df ← set_column overlap_bands_df "Total_Score"
    (CFloat <$> total_scores (Num lyrical_weight) (Num similar_weight)
                  (Num genre_weight) (Num country_weight)
                  themes similar genre country);
  overlap_bands_df ← drop overlap_bands_df
    ["Themes:_Similarity"; "Similar_Band_Score"; "Genre_Similarity";
     "Country_Similarity"];
  recommended_bands ties overlap_bands_df band_id.

End pipeline.

(** ** Specification vocabulary *)

(** An edge between the target and a counterpart, in either direction. *)
Definition between (target other : Z) (e : edge) : Prop :=
  (edge_band e = target /\ edge_similar e = other) \/
  (edge_band e = other /\ edge_similar e = target).

(** The edges whose score is filed under key [k] by
    [get_complete_similar_bands]. *)
Definition feeds (band_id k : Z) (e : edge) : Prop :=
  (edge_similar e = k /\ (edge_band e = band_id \/ edge_similar e = band_id)) \/
  (edge_band e = k /\ edge_similar e = band_id).

Fixpoint index_from {A : Type} (n : nat) (l : list A) : list (nat * A) :=
  match l with
  | [] => []
  | x :: l' => (n, x) :: index_from (S n) l'
  end.

(** The order of the stable selection on rows paired with their position
    in the table: the key ranks strictly above, or neither key ranks above
    the other and the position comes first. *)
Definition before {A : Type} (key : A -> fval) (p q : nat * A) : Prop :=
  ranks_above (key p.2) (key q.2) = true \/
  (ranks_above (key q.2) (key p.2) = false /\ p.1 < q.1).

(** The order that an arrangement [s] of rows displays: [y] stands before
    [x]. *)
Definition stands_before {A : Type} `{EqDecision A} (s : list A) (y x : A) : bool :=
  match list_find (fun z => z = y) s, list_find (fun z => z = x) s with
  | Some (i, _), Some (j, _) => bool_decide (i < j)
  | _, _ => false
  end.

(** The total [v] is no better than the total [w]: a missing total is no
    better than any, and present totals compare as numbers. *)
Definition no_better (v w : fval) : Prop :=
  match v, w with
  | NaN, _ => True
  | _, NaN => False
  | Inf false, _ => True
  | _, Inf true => True
  | Num x, Num y => (x <= y)%Q
  | _, _ => False
  end.

(** The cell of a row under [label] is numeric. *)
Definition numeric_at (label : string) (r : gmap string cell) : Prop :=
  exists c v, r !! label = Some c /\ cell_float c = Ok v.

(** A band table: the identifier column, and a tag list in every row of
    the 'Processed Genre' column. *)
Definition band_table (df : DataFrame) : Prop :=
  (exists ids, get_column df "Band ID" = Ok ids) /\
  "Processed Genre" ∈ columns df /\
  Forall (fun r => is_Some (row_tags r)) (rows df).

(** The tag set of the row meets the tag set of the target. *)
Definition shares_tag (band_genres : list string) (r : gmap string cell) : Prop :=
  exists genres tag, row_tags r = Some genres /\ tag ∈ band_genres /\ tag ∈ genres.

(** ** Example tables *)

Definition band_row (id : Z) (genre : string) (tags : list string) (themes : string)
    : gmap string cell :=
  list_to_map [("Band ID", CInt id); ("Genre", CStr genre);
               ("Processed Genre", CTags tags); ("Themes:", CStr themes)].

(** The scenario of the specification: the target (band 1) is tagged
    "death metal", band 2 "death metal" and "doom", band 3 "pop". *)
Definition band_catalogue : DataFrame :=
  mkFrame ["Band ID"; "Genre"; "Processed Genre"; "Themes:"]
    [band_row 1 "Death Metal" ["death metal"] "war, death";
     band_row 2 "Death/Doom Metal" ["death metal"; "doom"] "sorrow";
     band_row 3 "Pop" ["pop"] "love"].

(** A stand-in for the engine: every pair of texts fully similar. *)
Definition all_similar (texts : list cell) : result (list (list fval)) :=
  Ok (replicate (length texts) (replicate (length texts) (Num 1))).

(** A stand-in for the geographic provider: the same score everywhere. *)
Definition same_country (df : DataFrame) (band_id : Z) : result DataFrame :=
  set_column df "Country_Similarity" (replicate (length (rows df)) (CFloat (Num 1))).

(** A table of five scored candidates and the target (band 1). *)
Definition scored_row (id : Z) (total : fval) : gmap string cell :=
  list_to_map [("Band ID", CInt id); ("Total_Score", CFloat total)].

Definition scored_table : DataFrame :=
  mkFrame ["Band ID"; "Total_Score"]
    [scored_row 1 (Num 2); scored_row 2 (Num (1 # 2)); scored_row 3 (Num 1);
     scored_row 4 (Num 1); scored_row 5 NaN; scored_row 6 (Num 1)].

(** Two orders among rows of equal total: the order of the table, and an
    order in which band 6 ends before band 4. *)
Definition table_order (y x : gmap string cell) : bool := false.

Definition six_before_four (y x : gmap string cell) : bool :=
  row_has_id 6 y && row_has_id 4 x.

(** ** Theme texts ([preproc_data], lines 33-37)

    Texts are strings of ASCII characters: [str.strip] removes the ASCII
    white space of Python and [str.lower] changes the letters A-Z only. *)

Definition is_space (c : ascii) : bool :=
  existsb (Ascii.eqb c)
    [" "; "009"; "010"; "011"; "012"; "013"; "028"; "029"; "030"; "031"]%char.

(** [s.split(sep)]: never empty, [''] for the empty string. *)
Fixpoint split_on (sep : ascii) (s : string) : list string :=
  match s with
  | EmptyString => [EmptyString]
  | String c s' =>
      if Ascii.eqb c sep then EmptyString :: split_on sep s'
      else match split_on sep s' with
           | t :: ts => String c t :: ts
           | [] => [String c EmptyString]
           end
  end.

Fixpoint lstrip (s : string) : string :=
  match s with
  | EmptyString => EmptyString
  | String c s' => if is_space c then lstrip s' else s
  end.

Fixpoint rstrip (s : string) : string :=
  match s with
  | EmptyString => EmptyString
  | String c s' =>
      match rstrip s' with
      | EmptyString => if is_space c then EmptyString else String c EmptyString
      | t => String c t
      end
  end.

(** [s.strip()] *)
Definition strip (s : string) : string := lstrip (rstrip s).

(** [sep.join(l)] *)
Fixpoint join (sep : string) (l : list string) : string :=
  match l with
  | [] => EmptyString
  | [x] => x
  | x :: l' => x +:+ sep +:+ join sep l'
  end.

Definition lower_char (c : ascii) : ascii :=
  let n := nat_of_ascii c in
  if (65 <=? n)%nat && (n <=? 90)%nat then ascii_of_nat (n + 32) else c.

(** [s.lower()] *)
Fixpoint lower (s : string) : string :=
  match s with
  | EmptyString => EmptyString
  | String c s' => String (lower_char c) (lower s')
  end.

(** Lines 33-34 on one text: split at the commas, strip every theme, drop
    the empty ones, join with [', ']. *)
Definition join_themes (s : string) : string :=
  join ", " (filter (fun t => t <> EmptyString) (strip <$> split_on "," s)).

(** Lines 33-37 on one cell: [None] when the row is dropped (a missing or
    non-text cell becomes NaN and is dropped by [dropna], an empty result
    by the comparison with ['']). *)
Definition themes_of_cell (c : cell) : option string :=
  match c with
  | CStr s =>
      if decide (join_themes s = EmptyString) then None
      else Some (lower (join_themes s))
  | _ => None
  end.

Definition themes_of_row (r : gmap string cell) : option (gmap string cell) :=
  c ← r !! "Themes:";
  t ← themes_of_cell c;
  Some (<["Themes:" := CStr t]> r).

(** [series.str]: an AttributeError on a column that holds numbers only
    (read from the file with a numeric dtype, as a column of missing cells
    is); a column without rows or with a text is of dtype object. *)
Definition is_number (c : cell) : bool :=
  match c with
  | CInt _ | CFloat _ => true
  | _ => false
  end.

Definition str_accessor (cells : list cell) : result () :=
  match cells with
  | [] => Ok ()
  | _ :: _ => if forallb is_number cells then Raise AttributeError else Ok ()
  end.

(** The theme preprocessing of [preproc_data] on the lyrics table.  The
    column that reaches line 37 holds texts only. *)
Definition preproc_themes (lyrics_df : DataFrame) : result DataFrame :=
  cells ← get_column lyrics_df "Themes:";
  _ ← str_accessor cells;
  Ok (mkFrame (columns lyrics_df) (omap themes_of_row (rows lyrics_df))).

(** A text holds the character. *)
Fixpoint has_char (c : ascii) (s : string) : bool :=
  match s with
  | EmptyString => false
  | String c' s' => Ascii.eqb c' c || has_char c s'
  end.

(** A theme as the preprocessing leaves it: not empty, without comma,
    without white space at either end. *)
Definition theme_token (t : string) : Prop :=
  t <> EmptyString /\ has_char "," t = false /\ lstrip t = t /\ rstrip t = t.

(** Every character of the text is a comma or white space. *)
Fixpoint blank (s : string) : bool :=
  match s with
  | EmptyString => true
  | String c s' => (Ascii.eqb c "," || is_space c) && blank s'
  end.

(** Every character of the text is white space. *)
Fixpoint all_space (s : string) : bool :=
  match s with
  | EmptyString => true
  | String c s' => is_space c && all_space s'
  end.

(** A text of ASCII characters, and a row whose theme text, if it has one,
    is such a text. *)
Fixpoint is_ascii (s : string) : bool :=
  match s with
  | EmptyString => true
  | String c s' => (nat_of_ascii c <? 128)%nat && is_ascii s'
  end.

Definition ascii_themes (r : gmap string cell) : bool :=
  match r !! "Themes:" with
  | Some (CStr s) => is_ascii s
  | _ => true
  end.

(** ** More example tables *)

(** The catalogue with a stale 'Genre_Similarity' column. *)
Definition stale_catalogue : DataFrame :=
  mkFrame ["Band ID"; "Genre"; "Genre_Similarity"]
    [list_to_map [("Band ID", CInt 1); ("Genre", CStr "Death Metal");
                  ("Genre_Similarity", CFloat (Num 0))];
     list_to_map [("Band ID", CInt 2); ("Genre", CStr "Doom Metal");
                  ("Genre_Similarity", CFloat (Num 0))]].

(** Totals after the normalisation of a constant signal. *)
Definition unranked_table : DataFrame :=
  mkFrame ["Band ID"; "Total_Score"]
    [scored_row 3 NaN; scored_row 1 NaN; scored_row 2 NaN].

(** A catalogue whose target (band 1) has no tag. *)
Definition untagged_catalogue : DataFrame :=
  mkFrame ["Band ID"; "Genre"; "Processed Genre"; "Themes:"]
    [band_row 1 "" [] "war, death";
     band_row 2 "Death/Doom Metal" ["death metal"; "doom"] "sorrow"].

(** A lyrics table as read from the file. *)
Definition lyrics_table : DataFrame :=
  mkFrame ["Band ID"; "Themes:"]
    [list_to_map [("Band ID", CInt 1); ("Themes:", CStr " War,Death , ,Gore ")];
     list_to_map [("Band ID", CInt 2); ("Themes:", CFloat NaN)];
     list_to_map [("Band ID", CInt 3); ("Themes:", CStr " , ")];
     list_to_map [("Band ID", CInt 4); ("Themes:", CStr "Sorrow")]].

(** * Properties *)

(** ** Series reductions *)

Section series_facts.

Lemma Qle_bool_true (a b : Q) : Qle_bool a b = true <-> (a <= b)%Q.
Proof. apply Qle_bool_iff. Qed.

Lemma Qle_bool_false (a b : Q) : Qle_bool a b = false <-> (b < a)%Q.
Proof.
  split; intros H.
  - apply Qnot_le_lt. intros Hle. apply Qle_bool_iff in Hle. congruence.
  - destruct (Qle_bool a b) eqn:E; [|done].
    apply Qle_bool_iff in E. lra.
Qed.

Lemma Qeq_bool_true (a b : Q) : Qeq_bool a b = true <-> (a == b)%Q.
Proof. apply Qeq_bool_iff. Qed.

Lemma fleb_refl (a : fval) : is_nan a = false -> fleb a a = true.
Proof.
  destruct a as [q|[]|]; simpl; try done.
  intros _. apply Qle_bool_true. lra.
Qed.

Lemma fleb_total (a b : fval) :
  is_nan a = false -> is_nan b = false -> fleb a b = false -> fleb b a = true.
Proof.
  destruct a as [x|[]|], b as [y|[]|]; simpl; try done.
  intros _ _ H%Qle_bool_false. apply Qle_bool_true. lra.
Qed.

Lemma fleb_trans (a b c : fval) :
  fleb a b = true -> fleb b c = true -> fleb a c = true.
Proof.
  destruct a as [x|[]|], b as [y|[]|], c as [z|[]|]; simpl; try done.
  intros H1%Qle_bool_true H2%Qle_bool_true. apply Qle_bool_true. lra.
Qed.

(** The NaN-skipping minimum: NaN exactly when nothing is present,
    otherwise a present entry below every other present entry. *)
Lemma series_min_spec (s : list fval) :
  (series_min s = NaN /\ forall x, x ∈ s -> x = NaN) \/
  (is_nan (series_min s) = false /\ series_min s ∈ s /\
   forall x, x ∈ s -> x = NaN \/ fleb (series_min s) x = true).
Proof.
  induction s as [|a s IH]; [left; split; [done|by intros x ?%elem_of_nil]|].
  change (series_min (a :: s)) with (fmin2 a (series_min s)).
  destruct (is_nan a) eqn:Ea.
  { destruct a; try done. simpl.
    destruct IH as [[Hm Hall]|(Hm & Hin & Hall)].
    - left. split; [done|]. intros x [->|?]%elem_of_cons; auto.
    - right. split_and!; [done|by right|].
      intros x [->|?]%elem_of_cons; auto. }
  right. destruct IH as [[Hm Hall]|(Hm & Hin & Hall)].
  - rewrite Hm. assert (fmin2 a NaN = a) as -> by by destruct a.
    split_and!; [done|left|].
    intros x [->|Hx]%elem_of_cons; [right; by apply fleb_refl|auto].
  - assert (fmin2 a (series_min s) =
            if fleb a (series_min s) then a else series_min s) as ->.
    { unfold fmin2. destruct a; try done; by destruct (series_min s). }
    destruct (fleb a (series_min s)) eqn:E.
    + split_and!; [done|left|].
      intros x [->|Hx]%elem_of_cons; [right; by apply fleb_refl|].
      destruct (Hall x Hx) as [?|?]; auto. right. by eapply fleb_trans.
    + split_and!; [done|by right|].
      intros x [->|Hx]%elem_of_cons; [|auto].
      right. by apply fleb_total.
Qed.

Lemma series_max_spec (s : list fval) :
  (series_max s = NaN /\ forall x, x ∈ s -> x = NaN) \/
  (is_nan (series_max s) = false /\ series_max s ∈ s /\
   forall x, x ∈ s -> x = NaN \/ fleb x (series_max s) = true).
Proof.
  induction s as [|a s IH]; [left; split; [done|by intros x ?%elem_of_nil]|].
  change (series_max (a :: s)) with (fmax2 a (series_max s)).
  destruct (is_nan a) eqn:Ea.
  { destruct a; try done. simpl.
    destruct IH as [[Hm Hall]|(Hm & Hin & Hall)].
    - left. split; [done|]. intros x [->|?]%elem_of_cons; auto.
    - right. split_and!; [done|by right|].
      intros x [->|?]%elem_of_cons; auto. }
  right. destruct IH as [[Hm Hall]|(Hm & Hin & Hall)].
  - rewrite Hm. assert (fmax2 a NaN = a) as -> by by destruct a.
    split_and!; [done|left|].
    intros x [->|Hx]%elem_of_cons; [right; by apply fleb_refl|auto].
  - assert (fmax2 a (series_max s) =
            if fleb (series_max s) a then a else series_max s) as ->.
    { unfold fmax2. destruct a; try done; by destruct (series_max s). }
    destruct (fleb (series_max s) a) eqn:E.
    + split_and!; [done|left|].
      intros x [->|Hx]%elem_of_cons; [right; by apply fleb_refl|].
      destruct (Hall x Hx) as [?|?]; auto. right. by eapply fleb_trans.
    + split_and!; [done|by right|].
      intros x [->|Hx]%elem_of_cons; [|auto].
      right. by apply fleb_total.
Qed.

End series_facts.

(** ** Min-max normalisation *)

Section normalisation.

Lemma elem_of_normalize_score (s : list fval) (y : fval) :
  y ∈ normalize_score s <->
  exists x, x ∈ s /\ y = fdiv (fsub x (series_min s)) (fsub (series_max s) (series_min s)).
Proof.
  unfold normalize_score. rewrite list_elem_of_fmap. split; intros (x & ? & ?); eauto.
Qed.

Lemma normalize_score_lookup (s : list fval) (i : nat) :
  normalize_score s !! i =
  (fun x => fdiv (fsub x (series_min s)) (fsub (series_max s) (series_min s))) <$> s !! i.
Proof. unfold normalize_score. by rewrite list_lookup_fmap. Qed.

Lemma total_score_nan (lw sw gw cw t s g c : fval) :
  t = NaN \/ s = NaN \/ g = NaN \/ c = NaN ->
  total_score lw sw gw cw t s g c = NaN.
Proof.
  unfold total_score.
  assert (Hm : forall w, fmul w NaN = NaN) by by intros [].
  assert (Hl : forall a, fadd NaN a = NaN) by by intros [].
  assert (Hr : forall a, fadd a NaN = NaN) by (by intros [?|?|]).
  intros [-> | [-> | [-> | ->]]]; rewrite Hm, ?Hl, ?Hr; done.
Qed.

(** A series without two different present values is mapped to NaN
    throughout. *)
Lemma normalize_score_degenerate (s : list fval) :
  fltb (series_min s) (series_max s) = false ->
  forall y, y ∈ normalize_score s -> y = NaN.
Proof.
  intros Hdeg y (x & Hx & ->)%elem_of_normalize_score.
  destruct (series_min_spec s) as [[Hm Hall]|(Hm & Hin & Hall)].
  { by rewrite (Hall x Hx). }
  destruct (series_max_spec s) as [[HM _]|(HM & Hin' & Hall')].
  { rewrite HM. by destruct (fsub x _). }
  destruct (Hall x Hx) as [->|Hlo]; [done|].
  destruct (Hall' x Hx) as [->|Hhi]; [done|].
  destruct (series_min s) as [lo|[]|], (series_max s) as [hi|[]|],
    x as [q|[]|]; simpl in *; try done.
  unfold Qltb in Hdeg. apply negb_false_iff, Qle_bool_true in Hdeg.
  apply Qle_bool_true in Hlo, Hhi.
  assert (Qeq_bool (hi + - lo) 0 = true) as -> by (apply Qeq_bool_true; lra).
  assert (Qeq_bool (q + - lo) 0 = true) as -> by (apply Qeq_bool_true; lra).
  done.
Qed.

End normalisation.

(** C1.  [normalize_score] has no special case for [max == min]: a signal
    without two different present values (a single candidate, a constant
    signal) is mapped to NaN in every row, not to 0, and the NaN reaches
    the total of every row.  No exception is involved: the division by
    zero of float columns yields NaN. *)
Theorem normalize_score_degenerate_is_nan (s : list fval) (x : fval) :
  fltb (series_min s) (series_max s) = false ->
  x ∈ normalize_score s ->
  length (normalize_score s) = length s /\
  x = NaN /\
  forall lw sw gw cw t g c, total_score lw sw gw cw t x g c = NaN.
Proof.
  intros Hdeg Hx. split; [unfold normalize_score; by rewrite length_fmap|].
  pose proof (normalize_score_degenerate s Hdeg x Hx) as ->.
  split; [done|]. intros. apply total_score_nan. auto.
Qed.

(** The single-candidate table: the self-similarity [1.0] is the only
    value of the signal. *)
Lemma normalize_score_degenerate_is_nan_witness :
  normalize_score [Num 1] = [NaN] /\
  forall lw sw gw cw t g c, total_score lw sw gw cw t NaN g c = NaN.
Proof.
  split; [reflexivity|].
  apply (normalize_score_degenerate_is_nan [Num 1] NaN); [reflexivity|].
  vm_compute. left.
Defined.

(** C7.  [normalize_score] has no case for a missing score: [Series.min]
    and [Series.max] skip the NaN and the arithmetic hands it on, so the
    row of a missing score holds NaN after the normalisation, which is no
    value of [0, 1], also when the other values of the signal differ.  The
    join of the crowd score fills such rows with 0 ([fill_value=0]). *)
Theorem normalize_score_missing_entry (series : list fval) (i : nat) :
  series !! i = Some NaN ->
  length (normalize_score series) = length series /\
  normalize_score series !! i = Some NaN /\
  ~ (forall y, y ∈ normalize_score series -> fval_in_unit y).
Proof.
  intros Hi.
  assert (normalize_score series !! i = Some NaN) as Hnan
    by (by rewrite normalize_score_lookup, Hi).
  split_and!; [unfold normalize_score; by rewrite length_fmap|done|].
  intros Hall. apply (Hall NaN), list_elem_of_lookup. eauto.
Qed.

(** A country signal with an unresolved country: the other two scores
    differ. *)
Lemma normalize_score_missing_entry_witness :
  fltb (series_min [NaN; Num 0; Num 1]) (series_max [NaN; Num 0; Num 1]) = true /\
  normalize_score [NaN; Num 0; Num 1] = [NaN; Num (0 / 1); Num (1 / 1)] /\
  ~ (forall y, y ∈ normalize_score [NaN; Num 0; Num 1] -> fval_in_unit y).
Proof.
  split; [reflexivity|]. split; [reflexivity|].
  apply (normalize_score_missing_entry [NaN; Num 0; Num 1] 0). reflexivity.
Defined.

(** ** Crowd similarity aggregation *)

Section aggregation.

Lemma Qmax_choice (a b : Q) : Qmax a b = a \/ Qmax a b = b.
Proof.
  unfold Qmax, GenericMinMax.gmax. destruct (a ?= b)%Q; auto.
Qed.

(** The group of a key holds one of its scores, the largest. *)
Lemma group_max_Some (pairs : list (Z * Q)) (k : Z) (v : Q) :
  group_max pairs !! k = Some v ->
  (k, v) ∈ pairs /\ forall w, (k, w) ∈ pairs -> (w <= v)%Q.
Proof.
  revert v. induction pairs as [|[k0 v0] pairs IH]; intros v; simpl.
  { by rewrite lookup_empty. }
  rewrite lookup_partial_alter. destruct (decide (k0 = k)) as [->|Hne].
  - destruct (group_max pairs !! k) as [w|] eqn:Ew; simpl; intros [= <-].
    + destruct (IH w eq_refl) as [Hin Hmax]. split.
      * destruct (Qmax_choice w v0) as [-> | ->]; [by right|left].
      * intros u [[= ->]|Hu]%elem_of_cons; [apply Q.le_max_r|].
        pose proof (Hmax u Hu). pose proof (Q.le_max_l w v0). lra.
    + split; [left|].
      intros u [[= ->]|Hu]%elem_of_cons; [lra|].
      exfalso. clear IH. revert Ew Hu. generalize pairs.
      induction pairs0 as [|[k1 v1] ps IHps]; [by intros _ ?%elem_of_nil|].
      simpl. rewrite lookup_partial_alter.
      destruct (decide (k1 = k)) as [->|?].
      * by destruct (group_max ps !! k).
      * intros E [[= -> ->]|Hu]%elem_of_cons; [done|]. by apply IHps.
  - intros Hv. destruct (IH v Hv) as [Hin Hmax]. split; [by right|].
    intros u [[= -> ->]|Hu]%elem_of_cons; [done|]. by apply Hmax.
Qed.

Lemma group_max_is_Some (pairs : list (Z * Q)) (k : Z) (w : Q) :
  (k, w) ∈ pairs -> is_Some (group_max pairs !! k).
Proof.
  induction pairs as [|[k0 v0] pairs IH]; [by intros ?%elem_of_nil|].
  simpl. rewrite lookup_partial_alter.
  intros [[= -> ->]|Hin]%elem_of_cons.
  - rewrite decide_True by done. by destruct (group_max pairs !! k0).
  - destruct (decide (k0 = k)) as [->|?]; [|by apply IH].
    by destruct (group_max pairs !! k).
Qed.

Lemma aggregate_similar_bands_perm (pairs : list (Z * Q)) :
  aggregate_similar_bands pairs ≡ₚ map_to_list (group_max pairs).
Proof.
  unfold aggregate_similar_bands, groupby_max.
  by rewrite !merge_sort_Permutation.
Qed.

Lemma elem_of_aggregate_similar_bands (pairs : list (Z * Q)) (k : Z) (v : Q) :
  (k, v) ∈ aggregate_similar_bands pairs <-> group_max pairs !! k = Some v.
Proof.
  rewrite aggregate_similar_bands_perm. apply elem_of_map_to_list.
Qed.

(** One row per key. *)
Lemma aggregate_similar_bands_NoDup (pairs : list (Z * Q)) :
  NoDup (aggregate_similar_bands pairs).*1.
Proof.
  rewrite aggregate_similar_bands_perm. apply NoDup_fst_map_to_list.
Qed.

(** The pairs handed to the aggregation: every selected edge under its
    'Similar Artist ID', and every edge that lists the target as similar
    artist once more under its 'Band ID'. *)
Lemma elem_of_complete_bands (similar_artists_df : list edge) (band_id k : Z) (v : Q) :
  (exists e, e ∈ similar_artists_df /\ edge_score e = v /\ feeds band_id k e) <->
  (k, v) ∈
    (((fun e => (edge_similar e, edge_score e)) <$>
        filter (fun e => edge_band e = band_id \/ edge_similar e = band_id)
               similar_artists_df) ++
     ((fun e => (edge_band e, edge_score e)) <$>
        filter (fun e => edge_similar e = band_id) similar_artists_df))%list.
Proof.
  rewrite elem_of_app, !list_elem_of_fmap. split.
  - intros (e & He & <- & [[<- Hsel]|[<- Hsim]]).
    + left. exists e. split; [done|]. by apply list_elem_of_filter.
    + right. exists e. split; [done|]. by apply list_elem_of_filter.
  - intros [(e & [= -> ->] & [Hsel He]%list_elem_of_filter)
           |(e & [= -> ->] & [Hsim He]%list_elem_of_filter)];
      exists e; unfold feeds; eauto 6.
Qed.

Lemma complete_similar_bands_Some (similar_artists_df : list edge) (band_id k : Z) (v : Q) :
  (k, v) ∈ get_complete_similar_bands similar_artists_df band_id ->
  (exists e, e ∈ similar_artists_df /\ edge_score e = v /\ feeds band_id k e) /\
  (forall e, e ∈ similar_artists_df -> feeds band_id k e -> (edge_score e <= v)%Q).
Proof.
  unfold get_complete_similar_bands.
  intros [Hin Hmax]%elem_of_aggregate_similar_bands%group_max_Some. split.
  - by apply elem_of_complete_bands.
  - intros e He Hf. apply Hmax, elem_of_complete_bands. eauto.
Qed.

Lemma complete_similar_bands_is_Some (similar_artists_df : list edge) (band_id k : Z)
    (e : edge) :
  e ∈ similar_artists_df -> feeds band_id k e ->
  exists v, (k, v) ∈ get_complete_similar_bands similar_artists_df band_id.
Proof.
  intros He Hf. unfold get_complete_similar_bands.
  destruct (group_max_is_Some
    (((fun e => (edge_similar e, edge_score e)) <$>
        filter (fun e => edge_band e = band_id \/ edge_similar e = band_id)
               similar_artists_df) ++
     ((fun e => (edge_band e, edge_score e)) <$>
        filter (fun e => edge_similar e = band_id) similar_artists_df))%list
    k (edge_score e)) as [v Hv].
  { apply elem_of_complete_bands. eauto. }
  exists v. by apply elem_of_aggregate_similar_bands.
Qed.

Lemma feeds_between (band_id k : Z) (e : edge) :
  k <> band_id -> feeds band_id k e <-> between band_id k e.
Proof. unfold feeds, between. intros Hne. split; intros H; lia. Qed.

Lemma feeds_target (band_id : Z) (e : edge) :
  feeds band_id band_id e <-> edge_similar e = band_id.
Proof. unfold feeds. lia. Qed.

Lemma NoDup_fst_unique {A B : Type} (l : list (A * B)) (k : A) (v w : B) :
  NoDup l.*1 -> (k, v) ∈ l -> (k, w) ∈ l -> v = w.
Proof.
  induction l as [|[k0 v0] l IH]; [by intros _ ?%elem_of_nil|].
  rewrite fmap_cons, NoDup_cons. simpl. intros [Hk Hnd].
  intros [[= -> ->]|Hv]%elem_of_cons [[= ->]|Hw]%elem_of_cons; try done.
  - destruct Hk. apply list_elem_of_fmap. by exists (k0, w).
  - subst. destruct Hk. apply list_elem_of_fmap. by exists (k0, v).
  - by apply IH.
Qed.

(** The join of line 138 on an integer label. *)
Lemma reindex_score_Some (similar_bands_df : list (Z * Q)) (k : Z) (v : Q) :
  NoDup similar_bands_df.*1 -> (k, v) ∈ similar_bands_df ->
  reindex_score similar_bands_df (CInt k) = Num v.
Proof.
  intros Hnd Hin. unfold reindex_score.
  destruct (List.find _ _) as [[k' v']|] eqn:E.
  - apply List.find_some in E as [Hin'%list_elem_of_In Hk]. simpl in Hk.
    apply Z.eqb_eq in Hk as ->. simpl. f_equal.
    by eapply NoDup_fst_unique.
  - apply list_elem_of_In in Hin.
    pose proof (List.find_none _ _ E (k, v) Hin) as Hk.
    simpl in Hk. by rewrite Z.eqb_refl in Hk.
Qed.

Lemma reindex_score_None (similar_bands_df : list (Z * Q)) (k : Z) :
  (forall v, (k, v) ∉ similar_bands_df) ->
  reindex_score similar_bands_df (CInt k) = Num 0.
Proof.
  intros Hnot. unfold reindex_score.
  destruct (List.find _ _) as [[k' v']|] eqn:E; [|done].
  apply List.find_some in E as [Hin'%list_elem_of_In Hk]. simpl in Hk.
  apply Z.eqb_eq in Hk as ->. by destruct (Hnot v').
Qed.

End aggregation.

(** C5.  For a counterpart [other] of the target, the aggregated table has
    at most one row per key; a row for [other] carries the score of an
    edge between the target and [other] (in either direction) that is the
    largest score of all such edges; and [other] has a row as soon as one
    such edge exists.  With the edges (target, X, 0.7) and (X, target, 0.9)
    the row of X carries 0.9. *)
Theorem crowd_aggregator_max_per_counterpart
    (similar_artists_df : list edge) (band_id other : Z) :
  other <> band_id ->
  NoDup (get_complete_similar_bands similar_artists_df band_id).*1 /\
  (forall s, (other, s) ∈ get_complete_similar_bands similar_artists_df band_id ->
     (exists e, e ∈ similar_artists_df /\ between band_id other e /\ edge_score e = s) /\
     (forall e, e ∈ similar_artists_df -> between band_id other e ->
        (edge_score e <= s)%Q)) /\
  (forall e, e ∈ similar_artists_df -> between band_id other e ->
     exists s, (other, s) ∈ get_complete_similar_bands similar_artists_df band_id) /\
  (forall s,
     (other, s) ∈ get_complete_similar_bands
                    [mkEdge band_id other (7 # 10); mkEdge other band_id (9 # 10)]
                    band_id <->
     s = (9 # 10)%Q).
Proof.
  intros Hne.
  assert (Hsome : forall edges s,
    (other, s) ∈ get_complete_similar_bands edges band_id ->
    (exists e, e ∈ edges /\ between band_id other e /\ edge_score e = s) /\
    (forall e, e ∈ edges -> between band_id other e -> (edge_score e <= s)%Q)).
  { intros edges s [(e & He & Hs & Hf) Hmax]%complete_similar_bands_Some. split.
    - exists e. split_and!; [done| |done]. by apply feeds_between.
    - intros e' He' Hb. apply Hmax; [done|]. by apply feeds_between. }
  assert (Hhas : forall edges e, e ∈ edges -> between band_id other e ->
    exists s, (other, s) ∈ get_complete_similar_bands edges band_id).
  { intros edges e He Hb. eapply complete_similar_bands_is_Some; [done|].
    by apply feeds_between. }
  split_and!.
  - unfold get_complete_similar_bands. apply aggregate_similar_bands_NoDup.
  - apply Hsome.
  - apply Hhas.
  - assert (Hto : forall s,
      (other, s) ∈ get_complete_similar_bands
        [mkEdge band_id other (7 # 10); mkEdge other band_id (9 # 10)] band_id ->
      s = (9 # 10)%Q).
    { intros s [(e & He & _ & Hs) Hmax]%Hsome.
      assert (9 # 10 <= s)%Q as Hle.
      { apply (Hmax (mkEdge other band_id (9 # 10))).
        - right. left.
        - right. done. }
      apply elem_of_cons in He as [->|He]; simpl in Hs.
      { subst s. exfalso. revert Hle. unfold Qle. simpl. lia. }
      apply list_elem_of_singleton in He as ->. done. }
    intros s. split; [apply Hto|]. intros ->.
    destruct (Hhas [mkEdge band_id other (7 # 10); mkEdge other band_id (9 # 10)]
                (mkEdge band_id other (7 # 10))) as [s Hs].
    { left. }
    { left. done. }
    pose proof (Hto s Hs) as Es. by subst s.
Qed.

Lemma crowd_aggregator_max_per_counterpart_witness :
  get_complete_similar_bands [mkEdge 1 2 (7 # 10); mkEdge 2 1 (9 # 10)] 1
    = [(1%Z, (9 # 10)%Q); (2%Z, (9 # 10)%Q)] /\
  forall s,
    (2%Z, s) ∈ get_complete_similar_bands
                 [mkEdge 1 2 (7 # 10); mkEdge 2 1 (9 # 10)] 1 <->
    s = (9 # 10)%Q.
Proof.
  split; [reflexivity|].
  apply (crowd_aggregator_max_per_counterpart
           [mkEdge 1 2 (7 # 10); mkEdge 2 1 (9 # 10)] 1 2). lia.
Defined.

(** C8.  The row of the target itself is a candidate row without an
    edge to the target, yet it is not joined with 0: line 108 files the
    score of every edge that lists the target as 'Similar Artist ID' under
    the target's own identifier as well, and the join by 'Band ID' hands
    the largest of these scores to the target's row. *)
Theorem crowd_score_of_target_row
    (similar_artists_df : list edge) (band_id : Z) (e : edge)
    (ids : list cell) (i : nat) :
  (forall e', e' ∈ similar_artists_df -> ~ between band_id band_id e') ->
  e ∈ similar_artists_df -> edge_similar e = band_id -> (0 < edge_score e)%Q ->
  ids !! i = Some (CInt band_id) ->
  exists s,
    similar_band_score (get_complete_similar_bands similar_artists_df band_id) ids !! i
      = Some (CFloat (Num s)) /\
    (0 < s)%Q /\ (edge_score e <= s)%Q /\
    (exists e', e' ∈ similar_artists_df /\ edge_similar e' = band_id /\
                edge_band e' <> band_id /\ edge_score e' = s).
Proof.
  intros Hnone He Hsim Hpos Hi.
  destruct (complete_similar_bands_is_Some similar_artists_df band_id band_id e)
    as [s Hs]; [done|by apply feeds_target|].
  exists s.
  pose proof Hs as [(e' & He' & Hs' & Hf) Hmax]%complete_similar_bands_Some.
  assert (edge_score e <= s)%Q as Hle.
  { apply Hmax; [done|]. by apply feeds_target. }
  split_and!.
  - unfold similar_band_score. rewrite list_lookup_fmap, Hi. simpl. do 2 f_equal.
    apply reindex_score_Some; [|done].
    unfold get_complete_similar_bands. apply aggregate_similar_bands_NoDup.
  - lra.
  - done.
  - apply feeds_target in Hf. exists e'. split_and!; [done..| |done].
    intros Hb. apply (Hnone e' He'). left. done.
Qed.

(** The single edge (2, 1, 0.9) and the target 1: no edge joins band 1 to
    itself, band 3 has no edge and is joined with 0, the row of band 1
    with 0.9. *)
Lemma crowd_score_of_target_row_witness :
  (forall e, e ∈ [mkEdge 2 1 (9 # 10)] -> ~ between 1 1 e) /\
  similar_band_score (get_complete_similar_bands [mkEdge 2 1 (9 # 10)] 1)
                     [CInt 1; CInt 2; CInt 3]
    = [CFloat (Num (9 # 10)); CFloat (Num (9 # 10)); CFloat (Num 0)] /\
  exists s,
    similar_band_score (get_complete_similar_bands [mkEdge 2 1 (9 # 10)] 1)
                       [CInt 1; CInt 2; CInt 3] !! 0%nat
      = Some (CFloat (Num s)) /\
    (0 < s)%Q.
Proof.
  assert (forall e, e ∈ [mkEdge 2 1 (9 # 10)] -> ~ between 1 1 e) as Hnone.
  { intros e ->%list_elem_of_singleton. unfold between. simpl. lia. }
  split; [exact Hnone|]. split; [reflexivity|].
  destruct (crowd_score_of_target_row [mkEdge 2 1 (9 # 10)] 1 (mkEdge 2 1 (9 # 10))
              [CInt 1; CInt 2; CInt 3] 0 Hnone)
    as (s & Hs & Hpos & _); [left | reflexivity | reflexivity | reflexivity |].
  exists s. split; [exact Hs | exact Hpos].
Defined.

(** ** Top-n selection *)

Section selection.

Ltac order_cases :=
  repeat match goal with
  | a : fval |- _ => destruct a as [?|[]|]
  end;
  unfold ranks_above in *; cbn [is_nan fltb negb] in *; unfold Qltb in *;
  try done;
  repeat match goal with
  | H : negb _ = true |- _ => apply negb_true_iff in H
  | H : negb _ = false |- _ => apply negb_false_iff in H
  | H : Qle_bool _ _ = true |- _ => apply Qle_bool_true in H
  | H : Qle_bool _ _ = false |- _ => apply Qle_bool_false in H
  | |- negb _ = true => apply negb_true_iff
  | |- negb _ = false => apply negb_false_iff
  | |- Qle_bool _ _ = true => apply Qle_bool_true
  | |- Qle_bool _ _ = false => apply Qle_bool_false
  end; try lra.

Lemma ranks_above_trans (a b c : fval) :
  ranks_above a b = true -> ranks_above b c = true -> ranks_above a c = true.
Proof. intros H1 H2. order_cases. Qed.

Lemma ranks_above_neg_trans (a b c : fval) :
  ranks_above a b = false -> ranks_above b c = false -> ranks_above a c = false.
Proof. intros H1 H2. order_cases. Qed.

Lemma ranks_above_asym (a b : fval) :
  ranks_above a b = true -> ranks_above b a = false.
Proof. intros H1. order_cases. Qed.

(** [ranks_above] read on the numbers: [a] does not rank above [b] exactly
    when [a] is no better than [b]. *)
Lemma ranks_above_no_better (a b : fval) :
  ranks_above a b = false <-> no_better a b.
Proof.
  destruct a as [x|[]|], b as [y|[]|]; unfold ranks_above, no_better;
    cbn [is_nan fltb negb]; unfold Qltb; try (split; done).
  rewrite negb_false_iff. apply Qle_bool_true.
Qed.

Lemma StronglySorted_lookup_lt {B : Type} (R : relation B) (l : list B)
    (i j : nat) (x y : B) :
  StronglySorted R l -> i < j -> l !! i = Some x -> l !! j = Some y -> R x y.
Proof.
  intros Hs. revert i j. induction Hs as [|a l Hs IH Ha]; intros i j Hij Hi Hj.
  { done. }
  destruct j as [|j]; [lia|]. simpl in Hj. destruct i as [|i].
  - simpl in Hi. injection Hi as ->.
    eapply Forall_forall in Ha; [exact Ha|]. apply list_elem_of_lookup. eauto.
  - simpl in Hi. apply (IH i j); [lia|done..].
Qed.

(** On present values [ranks_above] is the strict order of the numbers. *)
Lemma ranks_above_Num (x y : Q) :
  ranks_above (Num x) (Num y) = true <-> (y < x)%Q.
Proof.
  unfold ranks_above. cbn [is_nan fltb]. unfold Qltb.
  rewrite negb_true_iff. apply Qle_bool_false.
Qed.

Context {A : Type} (key : A -> fval).

Lemma before_trans (p q r : nat * A) : before key p q -> before key q r -> before key p r.
Proof.
  unfold before. intros [H1|[H1 L1]] [H2|[H2 L2]].
  - left. by eapply ranks_above_trans.
  - left. destruct (ranks_above (key p.2) (key r.2)) eqn:E; [done|].
    pose proof (ranks_above_neg_trans _ _ _ E H2). congruence.
  - left. destruct (ranks_above (key p.2) (key r.2)) eqn:E; [done|].
    pose proof (ranks_above_neg_trans _ _ _ H1 E). congruence.
  - right. split; [|lia]. by eapply ranks_above_neg_trans.
Qed.

Lemma insert_desc_perm {B : Type} (k : B -> fval) (x : B) (l : list B) :
  insert_desc k x l ≡ₚ x :: l.
Proof.
  induction l as [|y l IH]; simpl; [done|].
  destruct (ranks_above (k y) (k x)); [|done].
  rewrite IH. apply Permutation_swap.
Qed.

Lemma sort_desc_perm {B : Type} (k : B -> fval) (l : list B) :
  sort_desc k l ≡ₚ l.
Proof.
  induction l as [|x l IH]; [done|].
  change (sort_desc k (x :: l)) with (insert_desc k x (sort_desc k l)).
  by rewrite insert_desc_perm, IH.
Qed.

Lemma insert_desc_fmap {B C : Type} (f : B -> C) (k : C -> fval) (x : B) (l : list B) :
  insert_desc k (f x) (f <$> l) = f <$> insert_desc (k ∘ f) x l.
Proof.
  induction l as [|y l IH]; simpl; [done|].
  destruct (ranks_above (k (f y)) (k (f x))); simpl; [|done].
  f_equal. apply IH.
Qed.

Lemma sort_desc_fmap {B C : Type} (f : B -> C) (k : C -> fval) (l : list B) :
  sort_desc k (f <$> l) = f <$> sort_desc (k ∘ f) l.
Proof.
  induction l as [|x l IH]; [done|].
  rewrite fmap_cons.
  change (sort_desc k (f x :: (f <$> l)))
    with (insert_desc k (f x) (sort_desc k (f <$> l))).
  rewrite IH. apply insert_desc_fmap.
Qed.

(** Inserting a row that comes before every row of a ranked list keeps
    the list ranked. *)
Lemma insert_desc_sorted (x : nat * A) (l : list (nat * A)) :
  StronglySorted (before key) l ->
  Forall (fun y => x.1 < y.1) l ->
  StronglySorted (before key) (insert_desc (key ∘ snd) x l).
Proof.
  induction l as [|y l IH]; simpl; intros Hs Hlt.
  { repeat constructor. }
  apply StronglySorted_cons in Hs as [Hy Hs].
  apply Forall_cons in Hlt as [Hxy Hlt].
  destruct (ranks_above (key y.2) (key x.2)) eqn:E.
  - apply StronglySorted_cons. split; [|by apply IH].
    rewrite insert_desc_perm. apply Forall_cons. split; [by left|done].
  - apply StronglySorted_cons. split; [|by apply StronglySorted_cons].
    assert (before key x y) as Hb by (by right).
    apply Forall_cons. split; [done|].
    eapply Forall_impl; [exact Hy|]. intros z Hz. by eapply before_trans.
Qed.

Lemma sort_desc_sorted (l : list (nat * A)) :
  StronglySorted (fun p q : nat * A => p.1 < q.1) l ->
  StronglySorted (before key) (sort_desc (key ∘ snd) l).
Proof.
  induction l as [|x l IH]; intros Hs; [constructor|].
  change (sort_desc (key ∘ snd) (x :: l))
    with (insert_desc (key ∘ snd) x (sort_desc (key ∘ snd) l)).
  apply StronglySorted_cons in Hs as [Hx Hs].
  apply insert_desc_sorted; [by apply IH|].
  by rewrite sort_desc_perm.
Qed.

Lemma elem_of_index_from (n i : nat) (x : A) (l : list A) :
  (i, x) ∈ index_from n l <-> n <= i /\ l !! (i - n) = Some x.
Proof.
  revert n. induction l as [|y l IH]; intros n; simpl.
  { split; [by intros ?%elem_of_nil|by intros [_ ?]]. }
  rewrite elem_of_cons, IH. split.
  - intros [[= -> ->]|[Hle Hl]].
    + split; [lia|]. by rewrite Nat.sub_diag.
    + split; [lia|]. by replace (i - n) with (S (i - S n)) by lia.
  - intros [Hle Hl]. destruct (decide (i = n)) as [->|Hne].
    + left. rewrite Nat.sub_diag in Hl. simpl in Hl. congruence.
    + right. split; [lia|].
      by replace (i - n) with (S (i - S n)) in Hl by lia.
Qed.

Lemma index_from_fst (n : nat) (l : list A) :
  (index_from n l).*1 = seq n (length l).
Proof.
  revert n. induction l as [|y l IH]; intros n; simpl; [done|]. by rewrite IH.
Qed.

Lemma index_from_sorted (n : nat) (l : list A) :
  StronglySorted (fun p q : nat * A => p.1 < q.1) (index_from n l).
Proof.
  revert n. induction l as [|y l IH]; intros n; simpl; [constructor|].
  apply StronglySorted_cons. split; [|apply IH].
  apply Forall_forall. intros [i x] [Hle _]%elem_of_index_from. simpl. lia.
Qed.

Lemma index_from_filter (P : A -> Prop)
    (H1 : forall p : nat * A, Decision (P p.2)) (H2 : forall x, Decision (P x))
    (n : nat) (l : list A) :
  (filter (fun p : nat * A => P p.2) (index_from n l)).*2 = filter P l.
Proof.
  revert n. induction l as [|y l IH]; intros n; simpl; [done|].
  rewrite !filter_cons. simpl.
  destruct (decide (P y)) as [?|?]; destruct (H2 y) as [?|?];
    try done; simpl; by rewrite IH.
Qed.

Lemma StronglySorted_filter {B : Type} (R : relation B) (P : B -> Prop)
    `{!forall x, Decision (P x)} (l : list B) :
  StronglySorted R l -> StronglySorted R (filter P l).
Proof.
  induction 1 as [|x l Hs IH Hx]; [constructor|].
  rewrite filter_cons. destruct (decide (P x)); [|done].
  apply StronglySorted_cons. split; [|done].
  apply Forall_forall. intros y [_ Hy]%list_elem_of_filter.
  by eapply Forall_forall in Hx.
Qed.

Lemma filter_length_split (P : A -> Prop) `{!forall x, Decision (P x)} (l : list A) :
  length (filter P l) + length (filter (fun x => ~ P x) l) = length l.
Proof.
  induction l as [|y l IH]; [done|].
  rewrite !filter_cons. destruct (decide (P y)), (decide (~ P y)); simpl; try done; lia.
Qed.

End selection.

(** ** Reading columns *)

Section frames.

Lemma get_column_Ok (df : DataFrame) (label : string) (cells : list cell) :
  get_column df label = Ok cells <->
  label ∈ columns df /\
  Forall2 (fun (r : gmap string cell) c => r !! label = Some c) (rows df) cells.
Proof.
  unfold get_column. destruct (decide (label ∈ columns df)) as [Hin|Hin].
  - destruct (mapM _ _) as [l|] eqn:E; simpl.
    + split.
      * intros [= <-]. split; [done|]. by apply mapM_Some in E.
      * intros [_ H]. f_equal.
        apply (mapM_Some (fun r : gmap string cell => r !! label)) in H.
        congruence.
    + split; [done|]. intros [_ H].
      apply (mapM_Some (fun r : gmap string cell => r !! label)) in H.
      congruence.
  - split; [done|]. by intros [? _].
Qed.

Lemma collect_Ok {B C : Type} (f : B -> result C) (l : list B) (k : list C) :
  collect f l = Ok k <-> Forall2 (fun a b => f a = Ok b) l k.
Proof.
  revert k. induction l as [|a l IH]; intros k; simpl.
  - split; [intros [= <-]; constructor|by intros ->%Forall2_nil_inv_l].
  - destruct (f a) as [b|e] eqn:Ea; simpl.
    + destruct (collect f l) as [bs|e] eqn:El; simpl.
      * split.
        -- intros [= <-]. constructor; [done|]. by apply IH.
        -- intros (b' & k' & Hb & Hk & ->)%Forall2_cons_inv_l.
           apply IH in Hk. congruence.
      * split; [done|].
        intros (b' & k' & Hb & Hk & ->)%Forall2_cons_inv_l.
        apply IH in Hk. congruence.
    + split; [done|].
      intros (b' & k' & Hb & Hk & ->)%Forall2_cons_inv_l. congruence.
Qed.

Lemma get_floats_Ok (df : DataFrame) (label : string) :
  (exists values, get_floats df label = Ok values) <->
  label ∈ columns df /\ Forall (numeric_at label) (rows df).
Proof.
  unfold get_floats. split.
  - intros [values H]. destruct (get_column df label) as [cells|] eqn:E; [|done].
    simpl in H. apply get_column_Ok in E as [Hin Hc]. apply collect_Ok in H.
    split; [done|]. clear Hin. revert values H.
    induction Hc as [|r c rs cs Hr Hrs IH]; intros values H; [constructor|].
    apply Forall2_cons_inv_l in H as (v & vs & Hv & Hvs & ->).
    constructor; [by exists c, v|by eapply IH].
  - intros [Hin Hall].
    assert (exists cells values,
      Forall2 (fun (r : gmap string cell) c => r !! label = Some c) (rows df) cells /\
      Forall2 (fun a b => cell_float a = Ok b) cells values)
      as (cells & values & Hc & Hv).
    { induction Hall as [|r rs (c & v & Hr & Hv) _ (cells & values & ? & ?)].
      - exists [], []. split; constructor.
      - exists (c :: cells), (v :: values). split; by constructor. }
    exists values.
    assert (get_column df label = Ok cells) as -> by by apply get_column_Ok.
    simpl. by apply collect_Ok.
Qed.

Lemma get_floats_rows (df : DataFrame) (label : string) (rs : list (gmap string cell)) :
  (exists values, get_floats df label = Ok values) -> rs ⊆ rows df ->
  exists values, get_floats (mkFrame (columns df) rs) label = Ok values.
Proof.
  intros [Hin Hall]%get_floats_Ok Hsub. apply get_floats_Ok. split; [done|].
  simpl. apply Forall_forall. intros r Hr%Hsub. by eapply Forall_forall in Hall.
Qed.

Lemma get_floats_row_float (df : DataFrame) (label : string) (values : list fval) :
  get_floats df label = Ok values -> row_float label <$> rows df = values.
Proof.
  unfold get_floats. destruct (get_column df label) as [cells|] eqn:E; [|done].
  simpl. intros H%collect_Ok. apply get_column_Ok in E as [_ Hc].
  revert values H. induction Hc as [|r c rs cs Hr Hrs IH]; intros values H.
  { by apply Forall2_nil_inv_l in H as ->. }
  apply Forall2_cons_inv_l in H as (v & vs & Hv & Hvs & ->).
  rewrite fmap_cons, (IH vs Hvs). f_equal.
  unfold row_float. rewrite Hr. by destruct c; simplify_eq/=.
Qed.

End frames.

(** ** Ranked lists *)

Section ranked_tables.

Context {A : Type} (key : A -> fval).

(** No later row ranks above an earlier one. *)
Local Abbreviation ranked :=
  (StronglySorted (fun a b : A => ranks_above (key b) (key a) = false)).

Lemma insert_desc_ranked (x : A) (l : list A) :
  ranked l -> ranked (insert_desc key x l).
Proof.
  induction l as [|y l IH]; simpl; intros Hs.
  { repeat constructor. }
  apply StronglySorted_cons in Hs as [Hy Hs].
  destruct (ranks_above (key y) (key x)) eqn:E.
  - apply StronglySorted_cons. split; [|by apply IH].
    rewrite insert_desc_perm. apply Forall_cons. split; [|done].
    by apply ranks_above_asym.
  - apply StronglySorted_cons. split; [|by apply StronglySorted_cons].
    apply Forall_cons. split; [done|].
    eapply Forall_impl; [exact Hy|]. intros z Hz. simpl in Hz.
    by eapply ranks_above_neg_trans.
Qed.

Lemma sort_desc_ranked (l : list A) : ranked (sort_desc key l).
Proof.
  induction l as [|x l IH]; [constructor|].
  change (sort_desc key (x :: l)) with (insert_desc key x (sort_desc key l)).
  by apply insert_desc_ranked.
Qed.

(** A ranked list is left as it is. *)
Lemma sort_desc_id (l : list A) : ranked l -> sort_desc key l = l.
Proof.
  induction 1 as [|x l Hs IH Hx]; [done|].
  change (sort_desc key (x :: l)) with (insert_desc key x (sort_desc key l)).
  rewrite IH. destruct l as [|y l]; [done|].
  simpl. apply Forall_cons in Hx as [Hy _]. by rewrite Hy.
Qed.

Lemma ranked_all_nan (l : list A) : Forall (fun x => key x = NaN) l -> ranked l.
Proof.
  induction 1 as [|x l Hx Hl IH]; [constructor|].
  apply StronglySorted_cons. split; [|done].
  eapply Forall_impl; [exact Hl|]. intros y Hy. simpl. by rewrite Hx, Hy.
Qed.

(** *** The sort that is not stable *)

Variable ties : A -> A -> bool.

Lemma insert_ties_perm (x : A) (l : list A) : insert_ties ties key x l ≡ₚ x :: l.
Proof.
  induction l as [|y l IH]; simpl; [done|].
  destruct (_ || _); [|done].
  rewrite IH. apply Permutation_swap.
Qed.

Lemma insert_ties_ranked (x : A) (l : list A) :
  ranked l -> ranked (insert_ties ties key x l).
Proof.
  induction l as [|y l IH]; simpl; intros Hs.
  { repeat constructor. }
  apply StronglySorted_cons in Hs as [Hy Hs].
  destruct (_ || _) eqn:E.
  - apply StronglySorted_cons. split; [|by apply IH].
    rewrite insert_ties_perm. apply Forall_cons. split; [|done].
    apply orb_true_iff in E as [E|E]; [by apply ranks_above_asym|].
    apply andb_true_iff in E as [E _]. by apply negb_true_iff in E.
  - apply orb_false_iff in E as [E _].
    apply StronglySorted_cons. split; [|by apply StronglySorted_cons].
    apply Forall_cons. split; [done|].
    eapply Forall_impl; [exact Hy|]. intros z Hz. simpl in Hz.
    by eapply ranks_above_neg_trans.
Qed.

Lemma filter_present_missing (l : list A) :
  (filter (fun x => is_nan (key x) = false) l ++
   filter (fun x => is_nan (key x) = true) l)%list ≡ₚ l.
Proof.
  induction l as [|x l IH]; [done|].
  rewrite !filter_cons. destruct (is_nan (key x)) eqn:E.
  - rewrite decide_False, decide_True by done.
    rewrite <- Permutation_middle. by f_equiv.
  - rewrite decide_True, decide_False by done. simpl. by f_equiv.
Qed.

Lemma sort_values_desc_perm (l : list A) : sort_values_desc ties key l ≡ₚ l.
Proof.
  unfold sort_values_desc. rewrite <- (filter_present_missing l) at 3.
  f_equiv. generalize (filter (fun x => is_nan (key x) = false) l).
  intros k. induction k as [|x k IH]; [done|].
  simpl. by rewrite insert_ties_perm, IH.
Qed.

Lemma sort_values_desc_ranked (l : list A) : ranked (sort_values_desc ties key l).
Proof.
  unfold sort_values_desc. apply StronglySorted_app_2.
  - intros x y _ [Hy _]%list_elem_of_filter.
    unfold ranks_above. destruct (key y); try done. by destruct (key x) as [?|[]|].
  - generalize (filter (fun x => is_nan (key x) = false) l).
    intros k. induction k as [|x k IH]; [constructor|].
    simpl. by apply insert_ties_ranked.
  - apply ranked_all_nan, Forall_forall.
    intros x [Hx _]%list_elem_of_filter. by destruct (key x).
Qed.

(** Rows without a value stay in table order. *)
Lemma sort_values_desc_all_nan (l : list A) :
  Forall (fun x => key x = NaN) l -> sort_values_desc ties key l = l.
Proof.
  intros Hall. unfold sort_values_desc.
  assert (filter (fun x => is_nan (key x) = false) l = []) as ->.
  { induction Hall as [|x k Hx Hk IH]; [done|].
    rewrite filter_cons, decide_False; [done|]. by rewrite Hx. }
  simpl. induction Hall as [|x k Hx Hk IH]; [done|].
  rewrite filter_cons, decide_True by (by rewrite Hx). by rewrite IH.
Qed.

(** What [nlargest] selects: the head of a ranked arrangement of the
    rows. *)
Lemma nlargest_rows_sorted (n : nat) (l : list A) :
  exists s, nlargest_rows ties key n l = take n s /\ s ≡ₚ l /\ ranked s.
Proof.
  unfold nlargest_rows. destruct (decide (length l <= n)).
  - exists (sort_values_desc ties key l).
    split_and!; [done|apply sort_values_desc_perm|apply sort_values_desc_ranked].
  - exists (sort_desc key l).
    split_and!; [done|apply sort_desc_perm|apply sort_desc_ranked].
Qed.

Lemma nlargest_rows_length (n : nat) (l : list A) :
  length (nlargest_rows ties key n l) = min n (length l).
Proof.
  destruct (nlargest_rows_sorted n l) as (s & -> & Hs & _).
  by rewrite length_take, Hs.
Qed.

Lemma elem_of_nlargest_rows (n : nat) (l : list A) (x : A) :
  x ∈ nlargest_rows ties key n l -> x ∈ l.
Proof.
  destruct (nlargest_rows_sorted n l) as (s & -> & Hs & _).
  intros (i & Hi & _)%elem_of_take. rewrite <- Hs.
  apply list_elem_of_lookup. eauto.
Qed.

Lemma nlargest_rows_all_nan (n : nat) (l : list A) :
  Forall (fun x => key x = NaN) l -> nlargest_rows ties key n l = take n l.
Proof.
  intros Hall. unfold nlargest_rows. destruct (decide (length l <= n)).
  - by rewrite sort_values_desc_all_nan.
  - rewrite sort_desc_id; [done|]. by apply ranked_all_nan.
Qed.

End ranked_tables.

(** *** Every arrangement of the ties *)

Section every_arrangement.

Context {A : Type} `{EqDecision A} (key : A -> fval).

Local Abbreviation ranked :=
  (StronglySorted (fun a b : A => ranks_above (key b) (key a) = false)).

Lemma list_find_eq_middle (s1 s2 : list A) (x : A) :
  x ∉ s1 ->
  list_find (fun z => z = x) (s1 ++ x :: s2) = Some (length s1, x).
Proof.
  intros Hx. rewrite list_find_app_r.
  - simpl. by rewrite decide_True.
  - apply list_find_None, Forall_forall. by intros z Hz ->.
Qed.

Lemma stands_before_middle (s1 s2 : list A) (x y : A) :
  NoDup (s1 ++ x :: s2) ->
  (y ∈ s1 -> stands_before (s1 ++ x :: s2) y x = true) /\
  (y ∈ s2 -> stands_before (s1 ++ x :: s2) y x = false).
Proof.
  intros Hnd. apply NoDup_app in Hnd as (Hs1 & Hdis & Hs2).
  apply NoDup_cons in Hs2 as [Hx2 Hs2].
  assert (x ∉ s1) as Hx1.
  { intros Hin. apply (Hdis x Hin). left. }
  unfold stands_before. rewrite (list_find_eq_middle s1 s2 x Hx1). split.
  - intros Hy.
    destruct (list_find_elem_of (fun z => z = y) s1 y Hy eq_refl) as [[i z] Hi].
    rewrite (list_find_app_l _ _ _ _ _ Hi).
    apply list_find_Some in Hi as (Hi & _ & _). apply lookup_lt_Some in Hi.
    by apply bool_decide_eq_true.
  - intros Hy.
    assert (y ∉ s1) as Hy1.
    { intros Hin. apply (Hdis y Hin). by right. }
    assert (y <> x) as Hne by (by intros ->).
    rewrite list_find_app_r
      by (apply list_find_None, Forall_forall; by intros z Hz ->).
    simpl. rewrite decide_False by (by intros E).
    destruct (list_find (fun z => z = y) s2) as [[j z]|]; simpl; [|done].
    apply bool_decide_eq_false. lia.
Qed.

Lemma insert_ties_app (ties : A -> A -> bool) (x : A) (a1 a2 : list A) :
  Forall (fun y => ranks_above (key x) (key y) = false /\ ties y x = true) a1 ->
  (forall y, head a2 = Some y ->
     ranks_above (key y) (key x) = false /\ ties y x = false) ->
  insert_ties ties key x (a1 ++ a2) = (a1 ++ x :: a2)%list.
Proof.
  intros H1 H2. induction H1 as [|y a1 [Hy Ht] _ IH]; simpl.
  - destruct a2 as [|y a2]; [done|]. simpl.
    destruct (H2 y eq_refl) as [-> ->]. by rewrite andb_false_r.
  - rewrite Hy, Ht. simpl. rewrite orb_true_r. by rewrite IH.
Qed.

Lemma filter_ext_in (P Q : A -> Prop) `{!forall x, Decision (P x)}
    `{!forall x, Decision (Q x)} (l : list A) :
  (forall x, x ∈ l -> P x <-> Q x) -> filter P l = filter Q l.
Proof.
  induction l as [|x l IH]; intros Hext; [done|].
  rewrite !filter_cons.
  rewrite IH by (intros y Hy; apply Hext; by right).
  destruct (decide (P x)) as [HP|HP], (decide (Q x)) as [HQ|HQ]; try done.
  - destruct HQ. apply Hext; [left|done].
  - destruct HP. apply Hext; [left|done].
Qed.

Lemma filter_all (P : A -> Prop) `{!forall x, Decision (P x)} (l : list A) :
  Forall P l -> filter P l = l.
Proof.
  induction 1 as [|x l Hx Hl IH]; [done|].
  by rewrite filter_cons, decide_True, IH by done.
Qed.

Lemma filter_none (P : A -> Prop) `{!forall x, Decision (P x)} (l : list A) :
  Forall (fun x => ~ P x) l -> filter P l = [].
Proof.
  induction 1 as [|x l Hx Hl IH]; [done|].
  by rewrite filter_cons, decide_False, IH by done.
Qed.

Lemma insert_ties_arrangement (s k : list A) :
  NoDup s -> ranked s -> NoDup k -> k ⊆ s ->
  foldr (insert_ties (stands_before s) key) [] k = filter (fun z => z ∈ k) s.
Proof.
  intros Hs Hranked Hk Hsub. induction Hk as [|x k Hx Hk IH].
  { rewrite filter_none; [done|]. apply Forall_forall. intros z _ Hz.
    by apply elem_of_nil in Hz. }
  simpl. rewrite IH by (intros z Hz; apply Hsub; by right).
  assert (x ∈ s) as Hin by (apply Hsub; left).
  apply list_elem_of_split in Hin as (s1 & s2 & ->).
  pose proof (fun y => stands_before_middle s1 s2 x y Hs) as Hmid.
  apply NoDup_app in Hs as (Hs1 & Hdis & Hs2).
  apply NoDup_cons in Hs2 as [Hx2 Hs2].
  assert (x ∉ s1) as Hx1.
  { intros Hin. apply (Hdis x Hin). left. }
  apply StronglySorted_app in Hranked as (Hcross & _ & Hr2).
  apply StronglySorted_cons in Hr2 as [Hafter _].
  rewrite !filter_app, !filter_cons.
  rewrite decide_False by done. rewrite decide_True by left.
  rewrite (filter_ext_in (fun z => z ∈ x :: k) (fun z => z ∈ k) s1).
  2:{ intros z Hz. rewrite elem_of_cons. split; [|by right].
      intros [->|?]; [done|done]. }
  rewrite (filter_ext_in (fun z => z ∈ x :: k) (fun z => z ∈ k) s2).
  2:{ intros z Hz. rewrite elem_of_cons. split; [|by right].
      intros [->|?]; [done|done]. }
  apply insert_ties_app.
  - apply Forall_forall. intros y [_ Hy]%list_elem_of_filter. split.
    + apply (Hcross y x Hy). left.
    + by apply Hmid.
  - intros y Hy. apply head_Some_elem_of, list_elem_of_filter in Hy as [_ Hy].
    split.
    + eapply Forall_forall in Hafter; [exact Hafter|done].
    + by apply Hmid.
Qed.

(** The model leaves the sort as open as quicksort does: every ranked
    arrangement of the present rows of a table of distinct rows is what
    [sort_values_desc] returns for some order among the ties. *)
Lemma sort_values_desc_any (l s : list A) :
  NoDup l -> s ≡ₚ filter (fun x => is_nan (key x) = false) l -> ranked s ->
  sort_values_desc (stands_before s) key l
  = (s ++ filter (fun x => is_nan (key x) = true) l)%list.
Proof.
  intros Hl Hperm Hranked. unfold sort_values_desc. f_equal.
  assert (NoDup (filter (fun x => is_nan (key x) = false) l)) as Hk
    by (by apply NoDup_filter).
  rewrite insert_ties_arrangement; [|by rewrite Hperm|done|done|].
  - apply filter_all, Forall_forall. intros z Hz. by rewrite <- Hperm.
  - intros z Hz. by rewrite Hperm.
Qed.

Lemma nlargest_rows_any (n : nat) (l s : list A) :
  length l <= n ->
  NoDup l -> s ≡ₚ filter (fun x => is_nan (key x) = false) l -> ranked s ->
  nlargest_rows (stands_before s) key n l
  = (s ++ filter (fun x => is_nan (key x) = true) l)%list.
Proof.
  intros Hn Hl Hperm Hranked. unfold nlargest_rows.
  rewrite decide_True by done. rewrite sort_values_desc_any by done.
  apply take_ge. rewrite length_app, Hperm, <- length_app.
  by rewrite filter_present_missing.
Qed.

End every_arrangement.

Section rows_and_positions.

Context {A B : Type} (f : B -> A) (key : A -> fval) (ties : A -> A -> bool).

Lemma insert_ties_fmap (x : B) (l : list B) :
  insert_ties ties key (f x) (f <$> l)
  = f <$> insert_ties (fun a b => ties (f a) (f b)) (key ∘ f) x l.
Proof.
  induction l as [|y l IH]; simpl; [done|].
  destruct (_ || _); simpl; [|done]. f_equal. apply IH.
Qed.

Lemma filter_fmap_bool (g : A -> bool) (b : bool) (l : list B) :
  filter (fun x => g x = b) (f <$> l) = f <$> filter (fun x => g (f x) = b) l.
Proof.
  induction l as [|y l IH]; [done|].
  rewrite fmap_cons, !filter_cons.
  destruct (decide (g (f y) = b)); simpl; by rewrite IH.
Qed.

Lemma sort_values_desc_fmap (l : list B) :
  sort_values_desc ties key (f <$> l)
  = f <$> sort_values_desc (fun a b => ties (f a) (f b)) (key ∘ f) l.
Proof.
  assert (Hk : forall k : list B,
    foldr (insert_ties ties key) [] (f <$> k)
    = f <$> foldr (insert_ties (fun a b => ties (f a) (f b)) (key ∘ f)) [] k).
  { intros k. induction k as [|x k IH]; [done|].
    rewrite fmap_cons. simpl. rewrite IH. apply insert_ties_fmap. }
  unfold sort_values_desc.
  rewrite (filter_fmap_bool (fun x => is_nan (key x)) false),
          (filter_fmap_bool (fun x => is_nan (key x)) true), fmap_app, Hk.
  done.
Qed.

Lemma nlargest_rows_fmap (n : nat) (l : list B) :
  nlargest_rows ties key n (f <$> l)
  = f <$> nlargest_rows (fun a b => ties (f a) (f b)) (key ∘ f) n l.
Proof.
  unfold nlargest_rows. rewrite length_fmap.
  destruct (decide (length l <= n)); rewrite fmap_take; f_equal.
  - apply sort_values_desc_fmap.
  - apply sort_desc_fmap.
Qed.

End rows_and_positions.

Section top_ten.

Variable ties : gmap string cell -> gmap string cell -> bool.
Variable band_id : Z.

Local Abbreviation total := (row_float "Total_Score").
Local Abbreviation kept :=
  (fun r : gmap string cell => row_has_id band_id r = false).
Local Abbreviation candidates :=
  (fun cand : list (gmap string cell) =>
     filter (fun p : nat * gmap string cell => row_has_id band_id p.2 = false)
            (index_from 0 cand)).

Lemma recommended_bands_inv (df res : DataFrame) :
  recommended_bands ties df band_id = Ok res ->
  res = mkFrame (columns df) (nlargest_rows ties total 10 (filter kept (rows df))).
Proof.
  unfold recommended_bands, nlargest.
  destruct (get_column df "Band ID"); [|done]. simpl.
  destruct (get_floats _ _); [|done]. simpl. by intros [= <-].
Qed.

Lemma recommended_bands_Ok (df : DataFrame) (ids : list cell) (totals : list fval) :
  get_column df "Band ID" = Ok ids ->
  get_floats df "Total_Score" = Ok totals ->
  recommended_bands ties df band_id
    = Ok (mkFrame (columns df) (nlargest_rows ties total 10 (filter kept (rows df)))).
Proof.
  intros Hids Htot. unfold recommended_bands, nlargest. rewrite Hids. simpl.
  destruct (get_floats_rows df "Total_Score" (filter kept (rows df))) as [v Hv].
  - by exists totals.
  - intros r [_ ?]%list_elem_of_filter. done.
  - by rewrite Hv.
Qed.

Lemma elem_of_take_sub {B : Type} (n : nat) (l : list B) (x : B) :
  x ∈ take n l -> x ∈ l.
Proof. intros (i & Hi & _)%elem_of_take. apply list_elem_of_lookup. eauto. Qed.

(** The target is in no selected row. *)
Lemma recommended_bands_excludes_target (df res : DataFrame) (r : gmap string cell) :
  recommended_bands ties df band_id = Ok res -> r ∈ rows res ->
  row_has_id band_id r = false.
Proof.
  intros -> %recommended_bands_inv. simpl.
  intros Hr%elem_of_nlargest_rows.
  by apply list_elem_of_filter in Hr as [Hr _].
Qed.

Lemma StronglySorted_fmap_strong {B C : Type} (R : relation B) (R' : relation C)
    (f : B -> C) (l : list B) :
  (forall x y, x ∈ l -> y ∈ l -> R x y -> R' (f x) (f y)) ->
  StronglySorted R l -> StronglySorted R' (f <$> l).
Proof.
  intros Himp Hs. induction Hs as [|x l Hs IH Hx]; [constructor|].
  rewrite fmap_cons. apply StronglySorted_cons. split.
  - apply Forall_fmap, Forall_forall. intros y Hy. simpl.
    apply Himp; [left|by right|]. by eapply Forall_forall in Hx.
  - apply IH. intros y z Hy Hz. apply Himp; by right.
Qed.

Lemma elem_of_candidates (cand : list (gmap string cell)) (i : nat)
    (r : gmap string cell) :
  (i, r) ∈ candidates cand <-> cand !! i = Some r /\ row_has_id band_id r = false.
Proof.
  rewrite list_elem_of_filter, elem_of_index_from. simpl. rewrite Nat.sub_0_r.
  split; [intros (? & _ & ?)|intros [? ?]]; auto with lia.
Qed.

(** The selection on the rows paired with their positions in the
    candidate table: the selected rows are the head of an arrangement of
    the non-target rows in which no row ranks above an earlier one, and
    which is the stable one when more than ten rows are to be ranked. *)
Lemma top_ten_arrangement (cand : list (gmap string cell)) :
  exists s : list (nat * gmap string cell),
    nlargest_rows ties total 10 (filter kept cand) = (take 10 s).*2 /\
    s ≡ₚ candidates cand /\
    StronglySorted
      (fun p q : nat * gmap string cell => ranks_above (total q.2) (total p.2) = false) s /\
    (10 < length (filter kept cand) -> StronglySorted (before total) s).
Proof.
  assert (HL : (candidates cand).*2 = filter kept cand).
  { apply (index_from_filter (fun r : gmap string cell => row_has_id band_id r = false)). }
  rewrite <- HL, (nlargest_rows_fmap snd). unfold nlargest_rows.
  rewrite length_fmap.
  destruct (decide (length (candidates cand) <= 10)) as [Hle|Hgt].
  - rewrite decide_True by done.
    eexists. split_and!; [reflexivity|apply sort_values_desc_perm| |lia].
    apply (sort_values_desc_ranked (total ∘ snd)).
  - rewrite decide_False by done.
    eexists. split_and!; [reflexivity|apply sort_desc_perm| |].
    + apply (sort_desc_ranked (total ∘ snd)).
    + intros _. apply sort_desc_sorted, StronglySorted_filter, index_from_sorted.
Qed.

(** Positions of the selected rows for an arrangement sorted by [R]. *)
Lemma selection_positions (cand : list (gmap string cell))
    (s : list (nat * gmap string cell)) (R : relation (nat * gmap string cell)) :
  s ≡ₚ candidates cand ->
  StronglySorted R s ->
  NoDup (take 10 s).*1 /\
  (forall a b i j, a < b ->
     (take 10 s).*1 !! a = Some i -> (take 10 s).*1 !! b = Some j ->
     exists x y, cand !! i = Some x /\ cand !! j = Some y /\ R (i, x) (j, y)) /\
  (forall j y, cand !! j = Some y -> row_has_id band_id y = false ->
     j ∉ (take 10 s).*1 ->
     forall i, i ∈ (take 10 s).*1 -> exists x, cand !! i = Some x /\ R (i, x) (j, y)).
Proof.
  intros Hperm Hsorted.
  assert (Hs : forall i r, (i, r) ∈ s <->
                 cand !! i = Some r /\ row_has_id band_id r = false).
  { intros i r. rewrite Hperm. apply elem_of_candidates. }
  split_and!.
  - apply (sublist_NoDup _ s.*1); [|apply fmap_sublist, sublist_take].
    rewrite Hperm. apply (sublist_NoDup _ (seq 0 (length cand))); [apply NoDup_seq|].
    rewrite <- (index_from_fst (A := gmap string cell)).
    apply fmap_sublist, sublist_filter.
  - intros a b i j Hab Ha Hb.
    apply list_lookup_fmap_Some in Ha as ([i' x] & -> & Ha).
    apply list_lookup_fmap_Some in Hb as ([j' y] & -> & Hb).
    apply lookup_take_Some in Ha as [Ha _]. apply lookup_take_Some in Hb as [Hb _].
    exists x, y. simpl. split_and!.
    + eapply Hs, list_elem_of_lookup_2, Ha.
    + eapply Hs, list_elem_of_lookup_2, Hb.
    + by eapply StronglySorted_lookup_lt.
  - intros j y Hj Hy Hnot i Hi.
    apply list_elem_of_fmap in Hi as ([i' x] & -> & Hi).
    assert ((j, y) ∈ s) as HjS by (by apply Hs).
    rewrite <- (take_drop 10 s) in HjS, Hsorted.
    apply elem_of_app in HjS as [HjS|HjS].
    { destruct Hnot. apply list_elem_of_fmap. by exists (j, y). }
    exists x. simpl. split.
    + by apply elem_of_take_sub, Hs in Hi as [? _].
    + by eapply StronglySorted_app_1_elem_of.
Qed.

End top_ten.


(** The scored table with the ties left in table order. *)
Example recommended_bands_scored_table :
  (fun res => (fun r : gmap string cell => r !! "Band ID") <$> rows res)
    <$> (match recommended_bands table_order scored_table 1 with
         | Ok res => Some res
         | Raise _ => None
         end)
  = Some [Some (CInt 3); Some (CInt 4); Some (CInt 6); Some (CInt 2); Some (CInt 5)].
Proof. reflexivity. Qed.



(** C9.  Every edge that lists the target as 'Similar Artist ID' files its
    score under the target's own identifier: the aggregated table has a
    row keyed by the target, it carries the largest score of those edges,
    and the join hands that score to the target's own candidate row.  The
    row disappears only with the target in [recommended_bands]. *)
Theorem aggregator_self_entry
    (similar_artists_df : list edge) (band_id : Z) (e : edge) :
  e ∈ similar_artists_df -> edge_similar e = band_id ->
  exists s,
    (band_id, s) ∈ get_complete_similar_bands similar_artists_df band_id /\
    (edge_score e <= s)%Q /\
    (exists e', e' ∈ similar_artists_df /\ edge_similar e' = band_id /\
                edge_score e' = s) /\
    reindex_score (get_complete_similar_bands similar_artists_df band_id)
                  (CInt band_id) = Num s /\
    (forall ties df res r, recommended_bands ties df band_id = Ok res ->
                           r ∈ rows res -> row_has_id band_id r = false).
Proof.
  intros He Hsim.
  destruct (complete_similar_bands_is_Some similar_artists_df band_id band_id e)
    as [s Hs]; [done|by apply feeds_target|].
  exists s. split; [done|].
  pose proof Hs as [(e' & He' & Hs' & Hf) Hmax]%complete_similar_bands_Some.
  split_and!.
  - apply Hmax; [done|]. by apply feeds_target.
  - exists e'. split_and!; [done| |done]. by apply feeds_target.
  - apply reindex_score_Some; [|done].
    unfold get_complete_similar_bands. apply aggregate_similar_bands_NoDup.
  - intros ties df res r. apply recommended_bands_excludes_target.
Qed.

Lemma aggregator_self_entry_witness :
  get_complete_similar_bands [mkEdge 2 1 (9 # 10)] 1
    = [(1%Z, (9 # 10)%Q); (2%Z, (9 # 10)%Q)] /\
  exists s, (1%Z, s) ∈ get_complete_similar_bands [mkEdge 2 1 (9 # 10)] 1 /\
            (9 # 10 <= s)%Q.
Proof.
  split; [reflexivity|].
  destruct (aggregator_self_entry [mkEdge 2 1 (9 # 10)] 1 (mkEdge 2 1 (9 # 10)))
    as (s & Hs & Hle & _); [left | reflexivity |].
  exists s. split; [exact Hs | exact Hle].
Defined.

(** ** Genre overlap *)

Section genre_filter.

Lemma genre_overlap_true (band_genres genres : list string) :
  genre_overlap band_genres genres = true <->
  exists tag, tag ∈ band_genres /\ tag ∈ genres.
Proof.
  unfold genre_overlap. rewrite existsb_exists. split.
  - intros (tag & Hin%list_elem_of_In & Hg%bool_decide_eq_true). eauto.
  - intros (tag & Hin%list_elem_of_In & Hg). exists tag.
    split; [done|]. by apply bool_decide_eq_true.
Qed.

Lemma row_overlaps_shares_tag (band_genres : list string) (r : gmap string cell) :
  row_overlaps band_genres r = true <-> shares_tag band_genres r.
Proof.
  unfold row_overlaps, shares_tag. destruct (row_tags r) as [genres|].
  - rewrite genre_overlap_true. split.
    + intros (tag & ? & ?). by exists genres, tag.
    + intros (g & tag & [= <-] & ? & ?). by exists tag.
  - split; [done|]. by intros (g & tag & ? & _).
Qed.

Lemma filter_head_of_list_find {B : Type} (P : B -> Prop) `{!forall x, Decision (P x)}
    (l : list B) (i : nat) (x : B) :
  list_find P l = Some (i, x) -> exists tl, filter P l = x :: tl.
Proof.
  revert i. induction l as [|y l IH]; intros i; [done|].
  rewrite filter_cons. simpl. destruct (decide (P y)) as [Hy|Hy].
  - intros [= _ ->]. eauto.
  - destruct (list_find P l) as [[j z]|] eqn:E; [|done].
    simpl. intros [= _ ->]. by eapply IH.
Qed.

Lemma list_find_filter_nil {B : Type} (P : B -> Prop) `{!forall x, Decision (P x)}
    (l : list B) :
  (forall x, x ∈ l -> ~ P x) -> filter P l = [].
Proof.
  intros Hnone. induction l as [|y l IH]; [done|].
  rewrite filter_cons. destruct (decide (P y)) as [Hy|Hy].
  - destruct (Hnone y); [left|done].
  - apply IH. intros x Hx. apply Hnone. by right.
Qed.

Lemma filter_by_genre_overlap_Ok (merged_df : DataFrame) (band_id : Z)
    (i : nat) (band_info : gmap string cell) (band_genres : list string) :
  band_table merged_df ->
  list_find (fun r => row_has_id band_id r = true) (rows merged_df)
    = Some (i, band_info) ->
  row_tags band_info = Some band_genres ->
  filter_by_genre_overlap merged_df band_id
    = Ok (mkFrame (columns merged_df)
            (filter (fun r => row_overlaps band_genres r) (rows merged_df))).
Proof.
  intros ([ids Hids] & Hcol & Htags) Hfind Hbg. unfold filter_by_genre_overlap.
  rewrite Hids. simpl.
  assert (filter (fun r => row_has_id band_id r) (rows merged_df)
          = filter (fun r => row_has_id band_id r = true) (rows merged_df)) as ->.
  { apply list_filter_iff. intros r. apply Is_true_true. }
  destruct (filter_head_of_list_find _ _ _ _ Hfind) as [tl ->].
  assert (exists cells, get_column merged_df "Processed Genre" = Ok cells)
    as [cells ->].
  { assert (is_Some (mapM (fun r : gmap string cell => r !! "Processed Genre")
                          (rows merged_df))) as [cells Hcells].
    { apply mapM_is_Some. eapply Forall_impl; [exact Htags|].
      intros r [g Hg]. unfold row_tags in Hg. simpl.
      by destruct (r !! "Processed Genre"). }
    exists cells. apply get_column_Ok. split; [done|]. by apply mapM_Some. }
  simpl. rewrite Hbg. simpl.
  destruct (mapM_is_Some_2 row_tags (rows merged_df)) as [tags ->]; [done|].
  done.
Qed.

End genre_filter.


(** ** The similarity column *)

Section similarity_column.

Lemma append_length (a b : string) :
  String.length (a +:+ b) = (String.length a + String.length b)%nat.
Proof. induction a as [|c a IH]; simpl; [done|]. by rewrite IH. Qed.

Lemma similarity_label_fresh (column : string) :
  column +:+ "_Similarity" <> column.
Proof.
  intros H. apply (f_equal String.length) in H.
  rewrite append_length in H. simpl in H. lia.
Qed.

Lemma drop_column_Ok (df : DataFrame) (column : string) :
  column ∈ columns df ->
  drop df [column]
    = Ok (mkFrame (filter (fun c => c <> column) (columns df))
                  (delete column <$> rows df)).
Proof.
  intros Hin. unfold drop.
  assert (list_find (fun c => c ∉ columns df) [column] = None) as ->.
  { apply list_find_None. constructor; [|constructor]. by intros H. }
  f_equal. f_equal.
  apply list_filter_iff. intros c. rewrite list_elem_of_singleton. done.
Qed.

End similarity_column.

(** C10.  On a non-empty table that has the text column and a row of the
    target, when the engine returns a matrix whose row at the target's
    position has one score per table row, and no column is named
    '<column>_Similarity' yet: the call returns the target's scores and
    leaves a table whose columns are those of the input without [column],
    followed by the new column; the rows keep their number and positions;
    in each row the new column holds the row's score, [column] is gone and
    every other cell is the one of the input. *)
Theorem calculate_similarity_frame
    (cosine_similarity_matrix : list cell -> result (list (list fval)))
    (overlap_bands_df : DataFrame) (band_id : Z) (column : string)
    (texts ids : list cell) (cosine_sim_matrix : list (list fval))
    (band_idx : nat) (band_info : gmap string cell) (similarity_scores : list fval) :
  frame_empty overlap_bands_df = false ->
  get_column overlap_bands_df column = Ok texts ->
  cosine_similarity_matrix texts = Ok cosine_sim_matrix ->
  get_column overlap_bands_df "Band ID" = Ok ids ->
  list_find (fun r => row_has_id band_id r = true) (rows overlap_bands_df)
    = Some (band_idx, band_info) ->
  cosine_sim_matrix !! band_idx = Some similarity_scores ->
  length similarity_scores = length (rows overlap_bands_df) ->
  column +:+ "_Similarity" ∉ columns overlap_bands_df ->
  exists df : DataFrame,
    calculate_similarity cosine_similarity_matrix overlap_bands_df band_id column
      = Ok (df, Some similarity_scores) /\
    columns df = (filter (fun c => c <> column) (columns overlap_bands_df)
                  ++ [column +:+ "_Similarity"])%list /\
    length (rows df) = length (rows overlap_bands_df) /\
    (forall i r, rows overlap_bands_df !! i = Some r ->
       exists r' v,
         rows df !! i = Some r' /\
         similarity_scores !! i = Some v /\
         r' !! (column +:+ "_Similarity") = Some (CFloat v) /\
         r' !! column = None /\
         forall other, other <> column -> other <> column +:+ "_Similarity" ->
                       r' !! other = r !! other).
Proof.
  intros Hne Htexts Hengine Hids Hfind Hrow Hlen Hfresh.
  pose proof (similarity_label_fresh column) as Hlabel.
  assert (column ∈ columns overlap_bands_df) as Hcol
    by by apply get_column_Ok in Htexts as [? _].
  exists (mkFrame
            (filter (fun c => c <> column) (columns overlap_bands_df)
             ++ [column +:+ "_Similarity"])%list
            (delete column <$>
               zip_with (fun (r : gmap string cell) v =>
                           <[column +:+ "_Similarity" := v]> r)
                        (rows overlap_bands_df) (CFloat <$> similarity_scores))).
  split_and!.
  - unfold calculate_similarity. rewrite Hne, Htexts. simpl.
    rewrite Hengine. simpl. rewrite Hids. simpl. rewrite Hfind. simpl.
    rewrite Hrow. simpl. unfold set_column.
    rewrite decide_True by (by rewrite length_fmap).
    rewrite (decide_False (P := _ ∈ columns overlap_bands_df)) by done. simpl.
    rewrite decide_True by (apply elem_of_app; by left).
    rewrite drop_column_Ok by (apply elem_of_app; by left). simpl.
    do 3 f_equal. rewrite filter_app. f_equal.
    rewrite filter_cons, decide_True by done. done.
  - done.
  - simpl. rewrite length_fmap, length_zip_with, length_fmap. lia.
  - intros i r Hi. simpl.
    destruct (similarity_scores !! i) as [v|] eqn:Hv.
    2:{ apply lookup_ge_None in Hv. apply lookup_lt_Some in Hi. lia. }
    exists (delete column (<[column +:+ "_Similarity" := CFloat v]> r)), v.
    split_and!.
    + rewrite list_lookup_fmap, lookup_zip_with, Hi, list_lookup_fmap, Hv. done.
    + done.
    + rewrite lookup_delete_ne by done. apply lookup_insert_eq.
    + apply lookup_delete_eq.
    + intros other H1 H2.
      rewrite lookup_delete_ne by done. by rewrite lookup_insert_ne.
Qed.


Lemma calculate_similarity_frame_witness :
  exists df,
    calculate_similarity all_similar band_catalogue 1 "Genre"
      = Ok (df, Some [Num 1; Num 1; Num 1]) /\
    columns df = ["Band ID"; "Processed Genre"; "Themes:"; "Genre_Similarity"] /\
    length (rows df) = 3%nat.
Proof.
  destruct (calculate_similarity_frame all_similar band_catalogue 1 "Genre"
              [CStr "Death Metal"; CStr "Death/Doom Metal"; CStr "Pop"]
              [CInt 1; CInt 2; CInt 3]
              (replicate 3 (replicate 3 (Num 1))) 0
              (band_row 1 "Death Metal" ["death metal"] "war, death")
              [Num 1; Num 1; Num 1])
    as (df & Hok & Hcols & Hlen & _);
    [reflexivity | reflexivity | reflexivity | reflexivity | reflexivity
    | reflexivity | reflexivity | | ].
  - apply (bool_decide_unpack _). reflexivity.
  - exists df. split_and!; [exact Hok | exact Hcols | exact Hlen].
Defined.

(** ** Unknown target *)

(** C2.  For a target that no row of the merged table carries, the filter
    returns the empty frame [pd.DataFrame()], which has no column; the next
    statement of [get_recommendations], dropping 'Processed Genre', raises
    a KeyError that reaches the caller. *)
Theorem unknown_band_raises_KeyError
    (cosine_similarity_matrix : list cell -> result (list (list fval)))
    (add_geographic_similarity_to_band : DataFrame -> Z -> result DataFrame)
    (ties : gmap string cell -> gmap string cell -> bool)
    (merged_df : DataFrame) (similar_artists_df : list edge) (band_id : Z)
    (genre_weight lyrical_weight similar_weight country_weight : Q)
    (ids : list cell) :
  get_column merged_df "Band ID" = Ok ids ->
  (forall r, r ∈ rows merged_df -> row_has_id band_id r = false) ->
  filter_by_genre_overlap merged_df band_id = Ok empty_frame /\
  get_recommendations cosine_similarity_matrix add_geographic_similarity_to_band ties
    merged_df similar_artists_df band_id
    genre_weight lyrical_weight similar_weight country_weight
    = Raise (KeyError "Processed Genre").
Proof.
  intros Hids Hnone.
  assert (filter_by_genre_overlap merged_df band_id = Ok empty_frame) as Hfilter.
  { unfold filter_by_genre_overlap. rewrite Hids. simpl.
    rewrite list_find_filter_nil; [done|].
    intros r Hr. rewrite (Hnone r Hr). simpl. tauto. }
  split; [done|].
  unfold get_recommendations. rewrite Hfilter. reflexivity.
Qed.

Lemma unknown_band_raises_KeyError_witness :
  filter_by_genre_overlap band_catalogue 9 = Ok empty_frame /\
  get_recommendations all_similar same_country table_order band_catalogue
    [mkEdge 1 2 (7 # 10)] 9 (1 # 3) (1 # 3) (1 # 3) (1 # 10)
    = Raise (KeyError "Processed Genre").
Proof.
  apply (unknown_band_raises_KeyError all_similar same_country table_order band_catalogue
           [mkEdge 1 2 (7 # 10)] 9 (1 # 3) (1 # 3) (1 # 3) (1 # 10)
           [CInt 1; CInt 2; CInt 3]); [reflexivity|].
  apply Forall_forall. repeat (constructor; [reflexivity|]). constructor.
Defined.

(** ** End-to-end runs *)

(** Band 1 against the catalogue, each signal constant over the two
    candidates: every normalised signal is NaN and so is the total of the
    recommended band. *)
Example get_recommendations_constant_signals :
  (fun res => (fun r : gmap string cell => (r !! "Band ID", r !! "Total_Score"))
                <$> rows res)
    <$> (match get_recommendations all_similar same_country table_order band_catalogue
                 [mkEdge 1 2 (7 # 10); mkEdge 2 1 (9 # 10)] 1
                 (1 # 3) (1 # 3) (1 # 3) (1 # 10) with
         | Ok res => Some res
         | Raise _ => None
         end)
  = Some [(Some (CInt 2), Some (CFloat NaN))].
Proof. reflexivity. Qed.

(** A target that is the only candidate: the call returns a table without
    rows. *)
Example get_recommendations_single_candidate :
  rows <$> (match get_recommendations all_similar same_country table_order
                    (mkFrame ["Band ID"; "Genre"; "Processed Genre"; "Themes:"]
                       [band_row 1 "Death Metal" ["death metal"] "war, death";
                        band_row 3 "Pop" ["pop"] "love"])
                    [mkEdge 2 3 (9 # 10)] 1 (1 # 3) (1 # 3) (1 # 3) (1 # 10) with
            | Ok res => Some res
            | Raise _ => None
            end)
  = Some [].
Proof. reflexivity. Qed.

(** The same call with a similarity table without rows: the joined zeros
    are Python integers and line 145 divides 0 by 0. *)
Example get_recommendations_no_edge_at_all :
  get_recommendations all_similar same_country table_order
    (mkFrame ["Band ID"; "Genre"; "Processed Genre"; "Themes:"]
       [band_row 1 "Death Metal" ["death metal"] "war, death";
        band_row 3 "Pop" ["pop"] "love"])
    [] 1 (1 # 3) (1 # 3) (1 # 3) (1 # 10)
  = Raise ZeroDivisionError.
Proof. reflexivity. Qed.

(** * Further properties of the pipeline *)

(** ** Order and extent of the aggregated crowd table *)

Section crowd_table.

Lemma score_ge_transitive : Transitive score_ge.
Proof.
  intros a b c. unfold score_ge. rewrite !Qle_bool_true. lra.
Qed.

Lemma score_ge_total : Total score_ge.
Proof.
  intros a b. unfold score_ge. rewrite !Qle_bool_true.
  destruct (Qlt_le_dec a.2 b.2); [right; lra|by left].
Qed.

Lemma aggregate_similar_bands_sorted (pairs : list (Z * Q)) :
  StronglySorted score_ge (aggregate_similar_bands pairs).
Proof.
  unfold aggregate_similar_bands.
  apply (@StronglySorted_merge_sort _ score_ge _ score_ge_transitive score_ge_total).
Qed.

Lemma complete_similar_bands_keys (similar_artists_df : list edge) (band_id k : Z) :
  k ∈ (get_complete_similar_bands similar_artists_df band_id).*1 <->
  exists e, e ∈ similar_artists_df /\ feeds band_id k e.
Proof.
  rewrite list_elem_of_fmap. split.
  - intros ([k' v] & -> & [(e & He & _ & Hf) _]%complete_similar_bands_Some). eauto.
  - intros (e & He & Hf).
    destruct (complete_similar_bands_is_Some _ _ _ _ He Hf) as [v Hv].
    by exists (k, v).
Qed.

End crowd_table.

(** X3.  The table returned by [get_complete_similar_bands] is in
    descending order of score: a row never carries a larger score than a
    row above it. *)
Theorem complete_similar_bands_descending
    (similar_artists_df : list edge) (band_id : Z) (i j : nat) (p q : Z * Q) :
  i < j ->
  get_complete_similar_bands similar_artists_df band_id !! i = Some p ->
  get_complete_similar_bands similar_artists_df band_id !! j = Some q ->
  (q.2 <= p.2)%Q.
Proof.
  intros Hij Hi Hj. apply Qle_bool_true.
  change (score_ge p q).
  eapply StronglySorted_lookup_lt; [|exact Hij|exact Hi|exact Hj].
  unfold get_complete_similar_bands. apply aggregate_similar_bands_sorted.
Qed.

Lemma complete_similar_bands_descending_witness :
  get_complete_similar_bands
    [mkEdge 1 2 (3 # 10); mkEdge 3 1 (9 # 10); mkEdge 1 4 (5 # 10)] 1
    = [(1%Z, (9 # 10)%Q); (3%Z, (9 # 10)%Q); (4%Z, (5 # 10)%Q); (2%Z, (3 # 10)%Q)] /\
  (3 # 10 <= 9 # 10)%Q.
Proof.
  split; [reflexivity|].
  apply (complete_similar_bands_descending
           [mkEdge 1 2 (3 # 10); mkEdge 3 1 (9 # 10); mkEdge 1 4 (5 # 10)] 1
           1 3 (3%Z, (9 # 10)%Q) (2%Z, (3 # 10)%Q)); [lia | reflexivity | reflexivity].
Defined.

(** X4.  A band is a key of the aggregated table exactly when it is the
    other end of an edge incident to the target, or is the target itself
    and some edge lists the target as 'Similar Artist ID'; edges that do
    not touch the target contribute nothing. *)
Theorem complete_similar_bands_extent
    (similar_artists_df : list edge) (band_id k : Z) :
  k ∈ (get_complete_similar_bands similar_artists_df band_id).*1 <->
  (k <> band_id /\ exists e, e ∈ similar_artists_df /\ between band_id k e) \/
  (k = band_id /\ exists e, e ∈ similar_artists_df /\ edge_similar e = band_id).
Proof.
  rewrite complete_similar_bands_keys. split.
  - intros (e & He & Hf). destruct (decide (k = band_id)) as [->|Hne].
    + right. split; [done|]. exists e. split; [done|]. by apply feeds_target.
    + left. split; [done|]. exists e. split; [done|]. by apply feeds_between.
  - intros [[Hne (e & He & Hb)]|[-> (e & He & Hs)]]; exists e; (split; [done|]).
    + by apply feeds_between.
    + by apply feeds_target.
Qed.

(** X5.  With a similarity table that has rows, none of them an edge
    incident to the target, the crowd table is empty: every candidate is
    joined with the score 0, the crowd signal is constant, and its
    normalisation is NaN in every row.  (A similarity table without rows is
    read with columns of dtype object; its zeros are divided as Python
    integers, see [normalize_object_column].) *)
Theorem no_edge_crowd_signal
    (similar_artists_df : list edge) (band_id : Z) (ids : list cell) :
  similar_artists_df <> [] ->
  (forall e, e ∈ similar_artists_df ->
     edge_band e <> band_id /\ edge_similar e <> band_id) ->
  get_complete_similar_bands similar_artists_df band_id = [] /\
  collect cell_float
    (similar_band_score (get_complete_similar_bands similar_artists_df band_id) ids)
    = Ok (replicate (length ids) (Num 0)) /\
  (forall x, x ∈ normalize_score (replicate (length ids) (Num 0)) -> x = NaN).
Proof.
  intros _ Hnone.
  assert (get_complete_similar_bands similar_artists_df band_id = []) as Hempty.
  { destruct (get_complete_similar_bands similar_artists_df band_id)
      as [|[k v] l] eqn:E; [done|]. exfalso.
    assert (k ∈ (get_complete_similar_bands similar_artists_df band_id).*1) as Hk.
    { rewrite E. left. }
    apply complete_similar_bands_keys in Hk as (e & He & Hf).
    destruct (Hnone e He) as [H1 H2]. unfold feeds in Hf. lia. }
  split; [done|]. rewrite Hempty. split.
  - apply collect_Ok. unfold similar_band_score.
    induction ids as [|c ids IH]; simpl; by constructor.
  - apply normalize_score_degenerate.
    destruct (series_min_spec (replicate (length ids) (Num 0)))
      as [[-> _]|(_ & Hmin & _)]; [done|].
    destruct (series_max_spec (replicate (length ids) (Num 0)))
      as [[-> _]|(_ & Hmax & _)]; [by destruct (series_min _) as [?|[]|]|].
    apply elem_of_replicate in Hmin as [-> _].
    apply elem_of_replicate in Hmax as [-> _]. done.
Qed.

Lemma no_edge_crowd_signal_witness :
  get_complete_similar_bands [mkEdge 2 3 (9 # 10)] 1 = [] /\
  collect cell_float
    (similar_band_score (get_complete_similar_bands [mkEdge 2 3 (9 # 10)] 1)
                        [CInt 1; CInt 2])
    = Ok [Num 0; Num 0] /\
  (forall x, x ∈ normalize_score [Num 0; Num 0] -> x = NaN).
Proof.
  apply (no_edge_crowd_signal [mkEdge 2 3 (9 # 10)] 1 [CInt 1; CInt 2]); [done|].
  intros e ->%list_elem_of_singleton. simpl. lia.
Defined.

(** X20.  For every candidate row other than the target's: when no edge
    joins the candidate and the target, in either direction, the joined
    crowd signal is 0; when some edge does, it is the largest score of
    those edges.  The joined column has one value per candidate row. *)
Theorem crowd_score_join
    (similar_artists_df : list edge) (band_id candidate : Z)
    (ids : list cell) (i : nat) :
  candidate <> band_id ->
  ids !! i = Some (CInt candidate) ->
  length (similar_band_score
            (get_complete_similar_bands similar_artists_df band_id) ids)
    = length ids /\
  ((forall e, e ∈ similar_artists_df -> ~ between band_id candidate e) ->
   similar_band_score (get_complete_similar_bands similar_artists_df band_id) ids !! i
     = Some (CFloat (Num 0))) /\
  (forall e, e ∈ similar_artists_df -> between band_id candidate e ->
   exists s,
     similar_band_score (get_complete_similar_bands similar_artists_df band_id) ids !! i
       = Some (CFloat (Num s)) /\
     (exists e', e' ∈ similar_artists_df /\ between band_id candidate e' /\
                 edge_score e' = s) /\
     (forall e', e' ∈ similar_artists_df -> between band_id candidate e' ->
                 (edge_score e' <= s)%Q)).
Proof.
  intros Hne Hi. unfold similar_band_score.
  split_and!.
  - by rewrite length_fmap.
  - intros Hnone. rewrite list_lookup_fmap, Hi. simpl. do 2 f_equal.
    apply reindex_score_None. intros v [(e & He & _ & Hf) _]%complete_similar_bands_Some.
    apply (Hnone e He). by apply feeds_between.
  - intros e He Hb.
    destruct (complete_similar_bands_is_Some similar_artists_df band_id candidate e)
      as [s Hs]; [done|by apply feeds_between|].
    exists s. rewrite list_lookup_fmap, Hi. simpl. split.
    { do 2 f_equal. apply reindex_score_Some; [|done].
      unfold get_complete_similar_bands. apply aggregate_similar_bands_NoDup. }
    apply complete_similar_bands_Some in Hs as [(e' & He' & Hs' & Hf) Hmax]. split.
    + exists e'. split_and!; [done| |done]. by apply feeds_between.
    + intros e'' He'' Hb''. apply Hmax; [done|]. by apply feeds_between.
Qed.

Lemma crowd_score_join_witness :
  similar_band_score
    (get_complete_similar_bands [mkEdge 1 2 (7 # 10); mkEdge 2 1 (9 # 10)] 1)
    [CInt 1; CInt 2; CInt 3] !! 2%nat = Some (CFloat (Num 0)).
Proof.
  apply (crowd_score_join [mkEdge 1 2 (7 # 10); mkEdge 2 1 (9 # 10)] 1 3
           [CInt 1; CInt 2; CInt 3] 2); [lia | reflexivity |].
  intros e [->|[->|[]%elem_of_nil]%elem_of_cons]%elem_of_cons;
    unfold between; simpl; lia.
Defined.


(** ** The candidate relation *)

Section candidates.

Lemma list_find_filter_keep {B : Type} (P Q : B -> Prop)
    `{!forall x, Decision (P x)} `{!forall x, Decision (Q x)}
    (l : list B) (i : nat) (x : B) :
  list_find Q l = Some (i, x) -> P x ->
  exists i', list_find Q (filter P l) = Some (i', x).
Proof.
  revert i. induction l as [|y l IH]; intros i; [done|].
  rewrite filter_cons. simpl. destruct (decide (Q y)) as [Hy|Hy].
  - intros [= _ ->] Hx. rewrite decide_True by done. simpl.
    rewrite decide_True by done. eauto.
  - destruct (list_find Q l) as [[j z]|] eqn:E; [|done].
    simpl. intros [= _ ->] Hx. destruct (IH j eq_refl Hx) as [i' Hi'].
    destruct (decide (P y)); [|eauto].
    simpl. rewrite decide_False by done. rewrite Hi'. simpl. eauto.
Qed.

Lemma filter_filter_same {B : Type} (P : B -> Prop) `{!forall x, Decision (P x)}
    (l : list B) :
  filter P (filter P l) = filter P l.
Proof.
  induction l as [|y l IH]; [done|].
  rewrite filter_cons. destruct (decide (P y)) as [Hy|Hy]; [|done].
  rewrite filter_cons, decide_True by done. by rewrite IH.
Qed.

Lemma band_table_filter (df : DataFrame) (P : gmap string cell -> Prop)
    `{!forall x, Decision (P x)} :
  band_table df -> band_table (mkFrame (columns df) (filter P (rows df))).
Proof.
  intros ([ids Hids] & Hcol & Htags). split_and!.
  - apply get_column_Ok in Hids as [Hin Hc].
    assert (Forall (fun r : gmap string cell => is_Some (r !! "Band ID"))
                   (filter P (rows df))) as Hall.
    { apply Forall_forall. intros r [_ Hr]%list_elem_of_filter.
      apply list_elem_of_lookup in Hr as [i Hi].
      destruct (Forall2_lookup_l _ _ _ _ _ Hc Hi) as (c & _ & ?). by exists c. }
    destruct (mapM_is_Some_2 (fun r : gmap string cell => r !! "Band ID") _ Hall)
      as [cells Hcells].
    exists cells. apply get_column_Ok. split; [done|]. by apply mapM_Some.
  - done.
  - simpl. apply Forall_forall. intros r [_ Hr]%list_elem_of_filter.
    by eapply Forall_forall in Htags.
Qed.

End candidates.

(** X6.  Sharing a genre tag is symmetric: the tags of one band meet the
    tags of another exactly when the tags of the other meet its own, so a
    band is kept for a target exactly when the target would be kept for
    that band. *)
Theorem genre_overlap_symmetric (band_genres genres : list string) :
  genre_overlap band_genres genres = genre_overlap genres band_genres.
Proof.
  destruct (genre_overlap band_genres genres) eqn:E1;
    destruct (genre_overlap genres band_genres) eqn:E2; try done.
  - apply genre_overlap_true in E1 as (tag & ? & ?).
    assert (genre_overlap genres band_genres = true) as E
      by (apply genre_overlap_true; eauto).
    congruence.
  - apply genre_overlap_true in E2 as (tag & ? & ?).
    assert (genre_overlap band_genres genres = true) as E
      by (apply genre_overlap_true; eauto).
    congruence.
Qed.

(** X7.  Filtering is idempotent: on a band table that contains the
    target with a non-empty tag list, filtering the candidate table once
    more for the same target returns the candidate table unchanged. *)
Theorem filter_by_genre_overlap_idempotent
    (merged_df : DataFrame) (band_id : Z)
    (i : nat) (band_info : gmap string cell) (band_genres : list string) :
  band_table merged_df ->
  list_find (fun r => row_has_id band_id r = true) (rows merged_df)
    = Some (i, band_info) ->
  row_tags band_info = Some band_genres ->
  band_genres <> [] ->
  exists res,
    filter_by_genre_overlap merged_df band_id = Ok res /\
    filter_by_genre_overlap res band_id = Ok res.
Proof.
  intros Htable Hfind Hbg Hne.
  rewrite (filter_by_genre_overlap_Ok merged_df band_id i band_info band_genres)
    by done.
  eexists. split; [reflexivity|].
  assert (row_overlaps band_genres band_info) as Hkeep.
  { apply Is_true_true, row_overlaps_shares_tag.
    destruct band_genres as [|tag tags]; [done|].
    exists (tag :: tags), tag. split_and!; [done|left|left]. }
  destruct (list_find_filter_keep
              (fun r => row_overlaps band_genres r)
              (fun r => row_has_id band_id r = true)
              (rows merged_df) i band_info Hfind Hkeep) as [i' Hi'].
  rewrite (filter_by_genre_overlap_Ok _ band_id i' band_info band_genres).
  - simpl. by rewrite filter_filter_same.
  - by apply band_table_filter.
  - exact Hi'.
  - done.
Qed.

Lemma filter_by_genre_overlap_idempotent_witness :
  exists res,
    filter_by_genre_overlap band_catalogue 1 = Ok res /\
    filter_by_genre_overlap res 1 = Ok res.
Proof.
  apply (filter_by_genre_overlap_idempotent band_catalogue 1 0
           (band_row 1 "Death Metal" ["death metal"] "war, death")
           ["death metal"]).
  - split_and!.
    + eexists. reflexivity.
    + apply (bool_decide_unpack _). reflexivity.
    + repeat constructor; eexists; reflexivity.
  - reflexivity.
  - reflexivity.
  - done.
Defined.

(** ** Failure modes of the similarity column *)

(** X8.  On a non-empty table with the text column and the 'Band ID'
    column but without a row of the target, [calculate_similarity] raises
    an IndexError (at [.index[0]]) when the engine has returned its
    matrix. *)
Theorem calculate_similarity_unknown_band
    (cosine_similarity_matrix : list cell -> result (list (list fval)))
    (overlap_bands_df : DataFrame) (band_id : Z) (column : string)
    (texts ids : list cell) (cosine_sim_matrix : list (list fval)) :
  frame_empty overlap_bands_df = false ->
  get_column overlap_bands_df column = Ok texts ->
  cosine_similarity_matrix texts = Ok cosine_sim_matrix ->
  get_column overlap_bands_df "Band ID" = Ok ids ->
  (forall r, r ∈ rows overlap_bands_df -> row_has_id band_id r = false) ->
  calculate_similarity cosine_similarity_matrix overlap_bands_df band_id column
    = Raise IndexError.
Proof.
  intros Hne Htexts Hengine Hids Hnone.
  unfold calculate_similarity. rewrite Hne, Htexts. simpl.
  rewrite Hengine. simpl. rewrite Hids. simpl.
  assert (list_find (fun r => row_has_id band_id r = true) (rows overlap_bands_df)
          = None) as ->; [|done].
  apply list_find_None, Forall_forall. intros r Hr. by rewrite (Hnone r Hr).
Qed.

Lemma calculate_similarity_unknown_band_witness :
  calculate_similarity all_similar band_catalogue 9 "Genre" = Raise IndexError.
Proof.
  apply (calculate_similarity_unknown_band all_similar band_catalogue 9 "Genre"
           [CStr "Death Metal"; CStr "Death/Doom Metal"; CStr "Pop"]
           [CInt 1; CInt 2; CInt 3]
           (replicate 3 (replicate 3 (Num 1))));
    [reflexivity | reflexivity | reflexivity | reflexivity |].
  apply Forall_forall. repeat (constructor; [reflexivity|]). constructor.
Defined.

(** X9.  When the table already has a column '<column>_Similarity', the
    call overwrites it where it stands instead of adding a column: the
    result has the columns of the input without [column], one column less,
    and the old cells of '<column>_Similarity' are replaced by the scores. *)
Theorem calculate_similarity_overwrites
    (cosine_similarity_matrix : list cell -> result (list (list fval)))
    (overlap_bands_df : DataFrame) (band_id : Z) (column : string)
    (texts ids : list cell) (cosine_sim_matrix : list (list fval))
    (band_idx : nat) (band_info : gmap string cell) (similarity_scores : list fval) :
  frame_empty overlap_bands_df = false ->
  get_column overlap_bands_df column = Ok texts ->
  cosine_similarity_matrix texts = Ok cosine_sim_matrix ->
  get_column overlap_bands_df "Band ID" = Ok ids ->
  list_find (fun r => row_has_id band_id r = true) (rows overlap_bands_df)
    = Some (band_idx, band_info) ->
  cosine_sim_matrix !! band_idx = Some similarity_scores ->
  length similarity_scores = length (rows overlap_bands_df) ->
  column +:+ "_Similarity" ∈ columns overlap_bands_df ->
  exists df : DataFrame,
    calculate_similarity cosine_similarity_matrix overlap_bands_df band_id column
      = Ok (df, Some similarity_scores) /\
    columns df = filter (fun c => c <> column) (columns overlap_bands_df) /\
    S (length (columns df)) <= length (columns overlap_bands_df) /\
    (forall i r, rows overlap_bands_df !! i = Some r ->
       exists r' v,
         rows df !! i = Some r' /\
         similarity_scores !! i = Some v /\
         r' !! (column +:+ "_Similarity") = Some (CFloat v)).
Proof.
  intros Hne Htexts Hengine Hids Hfind Hrow Hlen Hold.
  pose proof (similarity_label_fresh column) as Hlabel.
  assert (column ∈ columns overlap_bands_df) as Hcol
    by by apply get_column_Ok in Htexts as [? _].
  exists (mkFrame
            (filter (fun c => c <> column) (columns overlap_bands_df))
            (delete column <$>
               zip_with (fun (r : gmap string cell) v =>
                           <[column +:+ "_Similarity" := v]> r)
                        (rows overlap_bands_df) (CFloat <$> similarity_scores))).
  split_and!.
  - unfold calculate_similarity. rewrite Hne, Htexts. simpl.
    rewrite Hengine. simpl. rewrite Hids. simpl. rewrite Hfind. simpl.
    rewrite Hrow. simpl. unfold set_column.
    rewrite decide_True by (by rewrite length_fmap).
    rewrite (decide_True (P := _ +:+ _ ∈ columns overlap_bands_df)) by done. simpl.
    rewrite decide_True by done.
    by rewrite drop_column_Ok by done.
  - done.
  - simpl. apply (length_filter_lt _ _ column); [done|]. by intros H.
  - intros i r Hi. simpl.
    destruct (similarity_scores !! i) as [v|] eqn:Hv.
    2:{ apply lookup_ge_None in Hv. apply lookup_lt_Some in Hi. lia. }
    exists (delete column (<[column +:+ "_Similarity" := CFloat v]> r)), v.
    split_and!.
    + rewrite list_lookup_fmap, lookup_zip_with, Hi, list_lookup_fmap, Hv. done.
    + done.
    + rewrite lookup_delete_ne by done. apply lookup_insert_eq.
Qed.

(** ** Selection on unranked tables *)

(** X11.  When every total is NaN, as after the normalisation of a
    constant signal, nothing is ranked: the call returns the first ten
    rows of the table that are not the target's, in table order. *)
Theorem recommended_bands_all_nan
    (ties : gmap string cell -> gmap string cell -> bool)
    (overlap_bands_df : DataFrame) (band_id : Z)
    (ids : list cell) (totals : list fval) :
  get_column overlap_bands_df "Band ID" = Ok ids ->
  get_floats overlap_bands_df "Total_Score" = Ok totals ->
  (forall x, x ∈ totals -> x = NaN) ->
  recommended_bands ties overlap_bands_df band_id
    = Ok (mkFrame (columns overlap_bands_df)
            (take 10 (filter (fun r => row_has_id band_id r = false)
                             (rows overlap_bands_df)))).
Proof.
  intros Hids Htot Hnan.
  rewrite (recommended_bands_Ok ties band_id overlap_bands_df ids totals) by done.
  do 2 f_equal. apply nlargest_rows_all_nan.
  apply get_floats_row_float in Htot.
  apply Forall_forall. intros r [_ Hr]%list_elem_of_filter.
  apply Hnan. rewrite <- Htot. apply list_elem_of_fmap. eauto.
Qed.

Lemma calculate_similarity_overwrites_witness :
  exists df,
    calculate_similarity all_similar stale_catalogue 1 "Genre"
      = Ok (df, Some [Num 1; Num 1]) /\
    columns df = ["Band ID"; "Genre_Similarity"].
Proof.
  destruct (calculate_similarity_overwrites all_similar stale_catalogue 1 "Genre"
              [CStr "Death Metal"; CStr "Doom Metal"] [CInt 1; CInt 2]
              (replicate 2 (replicate 2 (Num 1))) 0
              (list_to_map [("Band ID", CInt 1); ("Genre", CStr "Death Metal");
                            ("Genre_Similarity", CFloat (Num 0))])
              [Num 1; Num 1])
    as (df & Hok & Hcols & _);
    [reflexivity | reflexivity | reflexivity | reflexivity | reflexivity
    | reflexivity | reflexivity | | ].
  - apply (bool_decide_unpack _). reflexivity.
  - exists df. split; [exact Hok | exact Hcols].
Defined.

Lemma recommended_bands_all_nan_witness :
  recommended_bands six_before_four unranked_table 1
    = Ok (mkFrame ["Band ID"; "Total_Score"] [scored_row 3 NaN; scored_row 2 NaN]).
Proof.
  apply (recommended_bands_all_nan six_before_four unranked_table 1
           [CInt 3; CInt 1; CInt 2] [NaN; NaN; NaN]); [reflexivity | reflexivity |].
  apply Forall_forall. repeat (constructor; [reflexivity|]). constructor.
Defined.

(** ** The entry point *)

Section entry_point.

Lemma bind_Ok_inv {B C : Type} (m : result B) (f : B -> result C) (c : C) :
  m ≫= f = Ok c -> exists b, m = Ok b /\ f b = Ok c.
Proof. destruct m as [b|e]; [|done]. intros H. by exists b. Qed.

Lemma set_column_Ok_inv (df df' : DataFrame) (label : string) (values : list cell) :
  set_column df label values = Ok df' ->
  label ∈ columns df' /\ length (rows df') = length (rows df).
Proof.
  unfold set_column. destruct (decide (length values = _)) as [Hlen|]; [|done].
  intros [= <-]. simpl. split.
  - destruct (decide (label ∈ columns df)); [done|]. apply elem_of_app. right. left.
  - rewrite length_zip_with. lia.
Qed.

Lemma drop_Ok_inv (df df' : DataFrame) (labels : list string) :
  drop df labels = Ok df' ->
  (forall c, c ∈ labels -> c ∈ columns df) /\
  columns df' = filter (fun c => c ∉ labels) (columns df).
Proof.
  unfold drop. destruct (list_find _ _) as [[? ?]|] eqn:E; [done|].
  intros [= <-]. split; [|done].
  apply list_find_None in E. intros c Hc.
  eapply Forall_forall in E; [|exact Hc]. simpl in E.
  by destruct (decide (c ∈ columns df)).
Qed.

Lemma filter_by_genre_overlap_columns (merged_df res : DataFrame) (band_id : Z) :
  filter_by_genre_overlap merged_df band_id = Ok res ->
  columns res <> [] ->
  exists r, r ∈ rows merged_df /\ row_has_id band_id r = true.
Proof.
  unfold filter_by_genre_overlap.
  destruct (get_column merged_df "Band ID"); [|done]. simpl.
  destruct (filter _ (rows merged_df)) as [|band_info tl] eqn:E.
  { by intros [= <-]. }
  intros _ _. exists band_info.
  assert (band_info ∈ band_info :: tl) as Hin by left.
  rewrite <- E in Hin. apply list_elem_of_filter in Hin as [Hid Hin].
  split; [done|]. by apply Is_true_true.
Qed.

End entry_point.

(** X12.  Whatever the engine and the geographic provider do, a table
    returned by [get_recommendations] has at most ten rows, none of them
    the target's; it has the columns 'Band ID' and 'Total_Score' and none
    of the four signal columns; and the target is a band of the merged
    table: no table is ever returned for an unknown band. *)
Theorem get_recommendations_result
    (cosine_similarity_matrix : list cell -> result (list (list fval)))
    (add_geographic_similarity_to_band : DataFrame -> Z -> result DataFrame)
    (ties : gmap string cell -> gmap string cell -> bool)
    (merged_df : DataFrame) (similar_artists_df : list edge) (band_id : Z)
    (genre_weight lyrical_weight similar_weight country_weight : Q)
    (res : DataFrame) :
  get_recommendations cosine_similarity_matrix add_geographic_similarity_to_band ties
    merged_df similar_artists_df band_id
    genre_weight lyrical_weight similar_weight country_weight = Ok res ->
  length (rows res) <= 10 /\
  (forall r, r ∈ rows res -> row_has_id band_id r = false) /\
  "Band ID" ∈ columns res /\
  "Total_Score" ∈ columns res /\
  (forall c, c ∈ ["Themes:_Similarity"; "Similar_Band_Score"; "Genre_Similarity";
                  "Country_Similarity"] -> c ∉ columns res) /\
  (exists r, r ∈ rows merged_df /\ row_has_id band_id r = true).
Proof.
  intros H. unfold get_recommendations in H.
  apply bind_Ok_inv in H as (d0 & H0 & H).
  apply bind_Ok_inv in H as (d1 & H1 & H).
  apply bind_Ok_inv in H as ([d2 ?] & H2 & H).
  apply bind_Ok_inv in H as ([d3 ?] & H3 & H).
  apply bind_Ok_inv in H as (ids & Hids & H).
  apply bind_Ok_inv in H as (d4 & H4 & H).
  apply bind_Ok_inv in H as (d5 & H5 & H).
  apply bind_Ok_inv in H as (d6 & H6 & H).
  apply bind_Ok_inv in H as (d7 & H7 & H).
  apply bind_Ok_inv in H as (d8 & H8 & H).
  apply bind_Ok_inv in H as (d9 & H9 & H).
  apply bind_Ok_inv in H as (themes & Hth & H).
  apply bind_Ok_inv in H as (similar & Hsi & H).
  apply bind_Ok_inv in H as (genre & Hge & H).
  apply bind_Ok_inv in H as (country & Hco & H).
  apply bind_Ok_inv in H as (d10 & H10 & H).
  apply bind_Ok_inv in H as (d11 & H11 & H).
  pose proof H as ->%recommended_bands_inv. simpl.
  apply drop_Ok_inv in H11 as [_ Hcols11]. apply set_column_Ok_inv in H10 as [Htot _].
  split_and!.
  - rewrite nlargest_rows_length. lia.
  - intros r Hr. eapply recommended_bands_excludes_target; [exact H|exact Hr].
  - unfold recommended_bands in H.
    destruct (get_column d11 "Band ID") eqn:E; [|done].
    by apply get_column_Ok in E as [? _].
  - rewrite Hcols11. apply list_elem_of_filter. split; [|done].
    intros Hin. repeat (apply elem_of_cons in Hin as [?|Hin]; [done|]).
    by apply elem_of_nil in Hin.
  - intros c Hc. rewrite Hcols11. intros [Hnot _]%list_elem_of_filter. done.
  - apply (filter_by_genre_overlap_columns merged_df d0); [done|].
    apply drop_Ok_inv in H1 as [Hin _]. intros E.
    specialize (Hin "Processed Genre"). rewrite E in Hin.
    eapply elem_of_nil, Hin. left.
Qed.

Lemma get_recommendations_result_witness :
  get_recommendations all_similar same_country table_order band_catalogue
    [mkEdge 1 2 (7 # 10); mkEdge 2 1 (9 # 10)] 1
    (1 # 3) (1 # 3) (1 # 3) (1 # 10) = Ok (mkFrame ["Band ID"; "Total_Score"]
                                             [scored_row 2 NaN]) /\
  length (rows (mkFrame ["Band ID"; "Total_Score"] [scored_row 2 NaN])) <= 10.
Proof.
  assert (get_recommendations all_similar same_country table_order band_catalogue
            [mkEdge 1 2 (7 # 10); mkEdge 2 1 (9 # 10)] 1
            (1 # 3) (1 # 3) (1 # 3) (1 # 10)
          = Ok (mkFrame ["Band ID"; "Total_Score"] [scored_row 2 NaN])) as E
    by (vm_compute; reflexivity).
  split; [exact E|].
  apply (get_recommendations_result all_similar same_country table_order band_catalogue
           [mkEdge 1 2 (7 # 10); mkEdge 2 1 (9 # 10)] 1
           (1 # 3) (1 # 3) (1 # 3) (1 # 10) _ E).
Defined.

(** X13.  When the target is in the band table but its tag list is empty,
    no band is a candidate and the call does not return a table: the
    similarity columns are never created, so, unless the geographic
    provider fails first, the normalisation of 'Themes:_Similarity' raises
    a KeyError.  (The provider is assumed not to add that column.) *)
Theorem get_recommendations_no_candidate
    (cosine_similarity_matrix : list cell -> result (list (list fval)))
    (add_geographic_similarity_to_band : DataFrame -> Z -> result DataFrame)
    (ties : gmap string cell -> gmap string cell -> bool)
    (merged_df : DataFrame) (similar_artists_df : list edge) (band_id : Z)
    (genre_weight lyrical_weight similar_weight country_weight : Q)
    (i : nat) (band_info : gmap string cell) :
  band_table merged_df ->
  list_find (fun r => row_has_id band_id r = true) (rows merged_df)
    = Some (i, band_info) ->
  row_tags band_info = Some [] ->
  "Themes:_Similarity" ∉ columns merged_df ->
  (forall df df', add_geographic_similarity_to_band df band_id = Ok df' ->
     "Themes:_Similarity" ∈ columns df' -> "Themes:_Similarity" ∈ columns df) ->
  exists e,
    get_recommendations cosine_similarity_matrix add_geographic_similarity_to_band ties
      merged_df similar_artists_df band_id
      genre_weight lyrical_weight similar_weight country_weight = Raise e /\
    (e = KeyError "Themes:_Similarity" \/
     exists df, add_geographic_similarity_to_band df band_id = Raise e).
Proof.
  intros Htable Hfind Htags Hfresh Hgeo.
  pose proof Htable as ([ids Hids] & Hcol & _).
  assert (Hbind : forall (B C : Type) (m : result B) (f : B -> result C) b,
            m = Ok b -> m ≫= f = f b) by (by intros B C m f b ->).
  set (d1 := mkFrame (filter (fun c => c <> "Processed Genre") (columns merged_df)) []).
  assert (H0 : filter_by_genre_overlap merged_df band_id
               = Ok (mkFrame (columns merged_df) [])).
  { rewrite (filter_by_genre_overlap_Ok merged_df band_id i band_info []) by done.
    do 2 f_equal. apply list_find_filter_nil. intros r _. unfold row_overlaps.
    destruct (row_tags r); simpl; intros H; exact H. }
  assert (H1 : drop (mkFrame (columns merged_df) []) ["Processed Genre"] = Ok d1).
  { by rewrite drop_column_Ok. }
  assert (H2 : forall column,
            calculate_similarity cosine_similarity_matrix d1 band_id column
            = Ok (d1, None)).
  { intros column. unfold calculate_similarity.
    assert (frame_empty d1 = true) as -> by (unfold frame_empty; by destruct (columns d1)).
    done. }
  assert (Hids1 : get_column d1 "Band ID" = Ok []).
  { apply get_column_Ok. split; [|constructor].
    apply list_elem_of_filter. split; [done|].
    by apply get_column_Ok in Hids as [? _]. }
  destruct (set_column d1 "Similar_Band_Score"
              (similar_band_score
                 (get_complete_similar_bands similar_artists_df band_id) []))
    as [d4|] eqn:H4; [|unfold set_column in H4; simpl in H4; discriminate H4].
  assert (Hd4 : "Themes:_Similarity" ∉ columns d4).
  { unfold set_column in H4. simpl in H4. injection H4 as <-. simpl.
    intros Hin.
    assert ("Themes:_Similarity" ∈ columns d1) as Hin'.
    { case_decide; [done|].
      apply elem_of_app in Hin as [?|Hin]; [done|].
      by apply list_elem_of_singleton in Hin. }
    by apply list_elem_of_filter in Hin' as [_ ?]. }
  unfold get_recommendations.
  rewrite (Hbind _ _ _ _ _ H0). rewrite (Hbind _ _ _ _ _ H1).
  rewrite (Hbind _ _ _ _ _ (H2 "Genre")). cbv beta iota.
  rewrite (Hbind _ _ _ _ _ (H2 "Themes:")). cbv beta iota.
  rewrite (Hbind _ _ _ _ _ Hids1). rewrite (Hbind _ _ _ _ _ H4).
  destruct (add_geographic_similarity_to_band d4 band_id) as [d5|e] eqn:E5.
  2:{ exists e. split; [done|]. right. eauto. }
  exists (KeyError "Themes:_Similarity"). split; [|by left].
  rewrite (Hbind _ _ _ _ _ eq_refl).
  assert (normalize_column d5 "Themes:_Similarity"
          = Raise (KeyError "Themes:_Similarity")) as ->; [|done].
  unfold normalize_column, get_floats, get_column.
  rewrite decide_False; [done|].
  intros Hin. by apply (Hgeo _ _ E5) in Hin.
Qed.

Lemma get_recommendations_no_candidate_witness :
  get_recommendations all_similar same_country table_order untagged_catalogue
    [mkEdge 1 2 (7 # 10)] 1 (1 # 3) (1 # 3) (1 # 3) (1 # 10)
  = Raise (KeyError "Themes:_Similarity") /\
  exists e,
    get_recommendations all_similar same_country table_order untagged_catalogue
      [mkEdge 1 2 (7 # 10)] 1 (1 # 3) (1 # 3) (1 # 3) (1 # 10) = Raise e.
Proof.
  split; [vm_compute; reflexivity|].
  destruct (get_recommendations_no_candidate all_similar same_country table_order
              untagged_catalogue [mkEdge 1 2 (7 # 10)] 1
              (1 # 3) (1 # 3) (1 # 3) (1 # 10) 0 (band_row 1 "" [] "war, death"))
    as (e & He & _).
  - split_and!.
    + eexists. reflexivity.
    + apply (bool_decide_unpack _). reflexivity.
    + repeat constructor; eexists; reflexivity.
  - reflexivity.
  - reflexivity.
  - apply (bool_decide_unpack _). reflexivity.
  - intros df df' Hdf. unfold same_country, set_column in Hdf.
    destruct (decide (length _ = _)) in Hdf; [|discriminate Hdf].
    injection Hdf as <-. simpl.
    destruct (decide ("Country_Similarity" ∈ columns df)); [done|].
    intros [?|Hin]%elem_of_app; [done|].
    apply list_elem_of_singleton in Hin. discriminate Hin.
  - exists e. exact He.
Defined.

(** ** Theme texts *)

Section theme_texts.

Lemma is_space_lower_char (c : ascii) : is_space (lower_char c) = is_space c.
Proof. destruct c as [[] [] [] [] [] [] [] []]; reflexivity. Qed.

Lemma comma_lower_char (c : ascii) :
  Ascii.eqb (lower_char c) "," = Ascii.eqb c ",".
Proof. destruct c as [[] [] [] [] [] [] [] []]; reflexivity. Qed.

Lemma lower_char_idem (c : ascii) : lower_char (lower_char c) = lower_char c.
Proof. destruct c as [[] [] [] [] [] [] [] []]; reflexivity. Qed.

Lemma lower_app (a b : string) : lower (a +:+ b) = lower a +:+ lower b.
Proof. induction a as [|c a IH]; simpl; [done|]. by rewrite IH. Qed.

Lemma lower_idem (s : string) : lower (lower s) = lower s.
Proof.
  induction s as [|c s IH]; simpl; [done|]. by rewrite lower_char_idem, IH.
Qed.

Lemma lower_empty (s : string) : lower s = EmptyString <-> s = EmptyString.
Proof. by destruct s. Qed.

Lemma lstrip_lower (s : string) : lstrip (lower s) = lower (lstrip s).
Proof.
  induction s as [|c s IH]; simpl; [done|].
  rewrite is_space_lower_char. by destruct (is_space c).
Qed.

Lemma rstrip_lower (s : string) : rstrip (lower s) = lower (rstrip s).
Proof.
  induction s as [|c s IH]; simpl; [done|].
  rewrite IH, is_space_lower_char.
  destruct (rstrip s); simpl; [|done]. by destruct (is_space c).
Qed.

Lemma has_comma_lower (s : string) : has_char "," (lower s) = has_char "," s.
Proof.
  induction s as [|c s IH]; simpl; [done|]. by rewrite comma_lower_char, IH.
Qed.

Lemma lstrip_idem (s : string) : lstrip (lstrip s) = lstrip s.
Proof.
  induction s as [|c s IH]; simpl; [done|].
  destruct (is_space c) eqn:E; [done|]. simpl. by rewrite E.
Qed.

Lemma rstrip_tail (c : ascii) (u : string) :
  rstrip (String c u) = String c u -> rstrip u = u.
Proof.
  simpl. destruct (rstrip u) as [|d t] eqn:E.
  - destruct (is_space c); [done|]. by intros [= <-].
  - by intros [= <-].
Qed.

Lemma rstrip_lstrip (u : string) : rstrip u = u -> rstrip (lstrip u) = lstrip u.
Proof.
  induction u as [|c u IH]; [done|]. intros H.
  cbn [lstrip]. destruct (is_space c); [|done].
  apply IH. by eapply rstrip_tail.
Qed.

Lemma rstrip_idem (s : string) : rstrip (rstrip s) = rstrip s.
Proof.
  induction s as [|c s IH]; [done|].
  cbn [rstrip]. destruct (rstrip s) as [|d t] eqn:E.
  - destruct (is_space c) eqn:Ec; [done|]. simpl. by rewrite Ec.
  - cbn [rstrip] in *. by rewrite IH.
Qed.

Lemma strip_trimmed (s : string) :
  lstrip (strip s) = strip s /\ rstrip (strip s) = strip s.
Proof.
  unfold strip. split; [apply lstrip_idem|].
  apply rstrip_lstrip, rstrip_idem.
Qed.

Lemma has_char_lstrip (c : ascii) (s : string) :
  has_char c s = false -> has_char c (lstrip s) = false.
Proof.
  induction s as [|d s IH]; [done|].
  cbn [lstrip]. destruct (is_space d); [|done].
  simpl. intros [_ H]%orb_false_iff. by apply IH.
Qed.

Lemma has_char_rstrip (c : ascii) (s : string) :
  has_char c s = false -> has_char c (rstrip s) = false.
Proof.
  induction s as [|d s IH]; [done|].
  simpl. intros [Hd Hs]%orb_false_iff. specialize (IH Hs).
  destruct (rstrip s) as [|e t].
  - destruct (is_space d); [done|]. simpl. by rewrite Hd.
  - simpl in *. by rewrite Hd.
Qed.

Lemma split_on_nonempty (sep : ascii) (s : string) : split_on sep s <> [].
Proof.
  destruct s as [|c s]; simpl; [done|].
  destruct (Ascii.eqb c sep); [done|]. by destruct (split_on sep s).
Qed.

Lemma split_on_no_sep (sep : ascii) (s t : string) :
  t ∈ split_on sep s -> has_char sep t = false.
Proof.
  revert t. induction s as [|c s IH]; intros t; simpl.
  { by intros ->%list_elem_of_singleton. }
  destruct (Ascii.eqb c sep) eqn:Ec.
  - intros [->|Ht]%elem_of_cons; [done|by apply IH].
  - destruct (split_on sep s) as [|u us]; simpl.
    + intros ->%list_elem_of_singleton. simpl. by rewrite Ec.
    + intros [->|Ht]%elem_of_cons.
      * simpl. rewrite Ec. apply IH. left.
      * apply IH. by right.
Qed.

Lemma split_on_id (sep : ascii) (t : string) :
  has_char sep t = false -> split_on sep t = [t].
Proof.
  induction t as [|c t IH]; [done|].
  simpl. intros [Hc Ht]%orb_false_iff. by rewrite Hc, (IH Ht).
Qed.

Lemma split_on_app (sep : ascii) (t rest : string) :
  has_char sep t = false ->
  split_on sep (t +:+ String sep rest) = t :: split_on sep rest.
Proof.
  induction t as [|c t IH]; simpl.
  { intros _. by rewrite Ascii.eqb_refl. }
  intros [Hc Ht]%orb_false_iff. by rewrite Hc, (IH Ht).
Qed.

Lemma split_on_join (t : string) (toks : list string) :
  has_char "," t = false ->
  Forall (fun u => has_char "," u = false) toks ->
  split_on "," (join ", " (t :: toks)) = t :: (String " " <$> toks).
Proof.
  intros Ht Htoks. revert t Ht.
  induction Htoks as [|u toks Hu Htoks IH]; intros t Ht.
  { simpl. by apply split_on_id. }
  change (join ", " (t :: u :: toks))
    with (t +:+ String "," (String " " (join ", " (u :: toks)))).
  rewrite split_on_app by done.
  cbn [split_on]. change (Ascii.eqb " " ",") with false. cbn iota.
  by rewrite (IH u Hu).
Qed.

Lemma theme_token_lower (t : string) : theme_token t -> theme_token (lower t).
Proof.
  intros (Hne & Hc & Hl & Hr). split_and!.
  - by rewrite lower_empty.
  - by rewrite has_comma_lower.
  - by rewrite lstrip_lower, Hl.
  - by rewrite rstrip_lower, Hr.
Qed.

Lemma strip_theme_token (t : string) : theme_token t -> strip t = t.
Proof. intros (_ & _ & Hl & Hr). unfold strip. by rewrite Hr, Hl. Qed.

Lemma strip_space_theme_token (t : string) :
  theme_token t -> strip (String " " t) = t.
Proof.
  intros (Hne & _ & Hl & Hr). unfold strip. cbn [rstrip]. rewrite Hr.
  destruct t as [|c t]; [done|]. simpl in *. exact Hl.
Qed.

(** The themes that [join_themes] joins. *)
Lemma themes_are_tokens (s : string) :
  Forall theme_token (filter (fun t => t <> EmptyString) (strip <$> split_on "," s)).
Proof.
  apply Forall_forall. intros t [Hne Ht]%list_elem_of_filter.
  apply list_elem_of_fmap in Ht as (u & -> & Hu).
  apply split_on_no_sep in Hu. destruct (strip_trimmed u) as [Hl Hr].
  split_and!; [done| |done|done].
  unfold strip. by apply has_char_lstrip, has_char_rstrip.
Qed.

Lemma join_themes_join (toks : list string) :
  Forall theme_token toks -> join_themes (join ", " toks) = join ", " toks.
Proof.
  intros Htoks. unfold join_themes. destruct Htoks as [|t toks Ht Htoks]; [done|].
  rewrite split_on_join.
  - f_equal. rewrite fmap_cons, strip_theme_token by done.
    rewrite filter_cons, decide_True by apply Ht. f_equal.
    induction Htoks as [|u toks Hu Htoks IH]; [done|].
    rewrite !fmap_cons, strip_space_theme_token by done.
    rewrite filter_cons, decide_True by apply Hu. by rewrite IH.
  - apply Ht.
  - eapply Forall_impl; [exact Htoks|]. by intros u (_ & ? & _).
Qed.

Lemma lower_join (toks : list string) :
  lower (join ", " toks) = join ", " (lower <$> toks).
Proof.
  induction toks as [|t toks IH]; [done|].
  destruct toks as [|u toks]; [done|].
  change (join ", " (t :: u :: toks)) with (t +:+ ", " +:+ join ", " (u :: toks)).
  rewrite !lower_app, IH. done.
Qed.

Lemma join_tokens_empty (toks : list string) :
  Forall theme_token toks -> join ", " toks = EmptyString -> toks = [].
Proof.
  intros [|t toks' (Hne & _) _]; [done|].
  destruct t as [|c t]; [done|]. by destruct toks'.
Qed.

(** The cleaned text is a fixed point of the cleaning. *)
Lemma join_themes_lower (s : string) :
  join_themes (lower (join_themes s)) = lower (join_themes s).
Proof.
  unfold join_themes at 2 3. rewrite lower_join. apply join_themes_join.
  apply Forall_fmap. eapply Forall_impl; [apply themes_are_tokens|].
  intros t Ht. by apply theme_token_lower.
Qed.

Lemma themes_of_cell_fixed (c : cell) (t : string) :
  themes_of_cell c = Some t -> themes_of_cell (CStr t) = Some t.
Proof.
  destruct c as [| |s|]; try done. simpl.
  destruct (decide (join_themes s = EmptyString)) as [|Hne]; [done|].
  intros [= <-]. rewrite join_themes_lower.
  rewrite decide_False by (by rewrite lower_empty). by rewrite lower_idem.
Qed.

Lemma themes_of_row_fixed (r r' : gmap string cell) :
  themes_of_row r = Some r' -> themes_of_row r' = Some r'.
Proof.
  unfold themes_of_row. destruct (r !! "Themes:") as [c|]; [|done]. simpl.
  destruct (themes_of_cell c) as [t|] eqn:E; [|done]. simpl. intros [= <-].
  rewrite lookup_insert_eq.
  change (themes_of_cell (CStr t)
            ≫= (fun t0 => Some (<["Themes:" := CStr t0]> (<["Themes:" := CStr t]> r)))
          = Some (<["Themes:" := CStr t]> r)).
  rewrite (themes_of_cell_fixed c t E). simpl.
  by rewrite insert_insert_eq.
Qed.

Lemma omap_fixed {B : Type} (f : B -> option B) (l : list B) :
  Forall (fun x => f x = Some x) l -> omap f l = l.
Proof.
  induction 1 as [|x l Hx Hl IH]; [done|].
  simpl. rewrite Hx. f_equal. exact IH.
Qed.

Lemma elem_of_omap_themes (rs : list (gmap string cell)) (r' : gmap string cell) :
  r' ∈ omap themes_of_row rs <-> exists r, r ∈ rs /\ themes_of_row r = Some r'.
Proof. apply list_elem_of_omap. Qed.

End theme_texts.

(** X14.  The theme preprocessing of [preproc_data] is idempotent: since
    every call of [get_recommendations] preprocesses the module-level
    lyrics table again, it matters that a table that has been preprocessed
    is returned unchanged, row by row, by the next preprocessing. *)
Theorem preproc_themes_idempotent (lyrics_df res : DataFrame) :
  preproc_themes lyrics_df = Ok res -> preproc_themes res = Ok res.
Proof.
  unfold preproc_themes.
  destruct (get_column lyrics_df "Themes:") as [cells|] eqn:E; [|done].
  simpl. destruct (str_accessor cells) as [[]|]; [|done].
  simpl. intros [= <-]. apply get_column_Ok in E as [Hin _].
  assert (Hfixed : Forall (fun r => themes_of_row r = Some r)
                          (omap themes_of_row (rows lyrics_df))).
  { apply Forall_forall. intros r' (r & _ & Hr)%elem_of_omap_themes.
    by eapply themes_of_row_fixed. }
  assert (exists cells', get_column
            (mkFrame (columns lyrics_df) (omap themes_of_row (rows lyrics_df)))
            "Themes:" = Ok cells' /\ str_accessor cells' = Ok ())
    as (cells' & -> & Htext).
  { assert (is_Some (mapM (fun r : gmap string cell => r !! "Themes:")
                          (omap themes_of_row (rows lyrics_df)))) as [cells' Hc].
    { apply mapM_is_Some. eapply Forall_impl; [exact Hfixed|].
      intros r Hr. simpl. unfold themes_of_row in Hr.
      by destruct (r !! "Themes:"). }
    exists cells'. apply mapM_Some in Hc. split.
    { apply get_column_Ok. split; [done|]. exact Hc. }
    destruct Hc as [|r c rs cs Hr _]; [done|].
    apply Forall_cons in Hfixed as [Hfix _]. unfold themes_of_row in Hfix.
    rewrite Hr in Hfix. simpl in Hfix. by destruct c. }
  simpl. rewrite Htext. simpl. by rewrite omap_fixed.
Qed.

Lemma preproc_themes_idempotent_witness :
  exists res,
    preproc_themes lyrics_table = Ok res /\
    rows res = [list_to_map [("Band ID", CInt 1); ("Themes:", CStr "war, death, gore")];
                list_to_map [("Band ID", CInt 4); ("Themes:", CStr "sorrow")]] /\
    preproc_themes res = Ok res.
Proof.
  assert (preproc_themes lyrics_table
          = Ok (mkFrame ["Band ID"; "Themes:"]
                  [list_to_map [("Band ID", CInt 1);
                                ("Themes:", CStr "war, death, gore")];
                   list_to_map [("Band ID", CInt 4); ("Themes:", CStr "sorrow")]]))
    as E by (vm_compute; reflexivity).
  eexists. split; [exact E|]. split; [reflexivity|].
  exact (preproc_themes_idempotent lyrics_table _ E).
Defined.

Section blank_texts.

Lemma all_space_app (a b : string) :
  all_space (a +:+ b) = all_space a && all_space b.
Proof.
  induction a as [|c a IH]; simpl; [done|]. by rewrite IH, andb_assoc.
Qed.

Lemma rstrip_all_space (t : string) : all_space t = true -> rstrip t = EmptyString.
Proof.
  induction t as [|c t IH]; [done|].
  simpl. intros [Hc Ht]%andb_true_iff. by rewrite (IH Ht), Hc.
Qed.

Lemma rstrip_decomp (t : string) :
  exists ws, t = rstrip t +:+ ws /\ all_space ws = true.
Proof.
  induction t as [|c t (ws & Ht & Hws)]; [by exists EmptyString|].
  simpl. destruct (rstrip t) as [|d u] eqn:E.
  - change (t = ws) in Ht. subst t. destruct (is_space c) eqn:Ec.
    + exists (String c ws). split; [reflexivity|]. simpl. by rewrite Ec, Hws.
    + exists ws. split; [reflexivity|done].
  - exists ws. split; [|done].
    change (String c t = String c (String d u +:+ ws)). by f_equal.
Qed.

Lemma lstrip_empty (u : string) : lstrip u = EmptyString -> all_space u = true.
Proof.
  induction u as [|c u IH]; [done|].
  simpl. destruct (is_space c); [|done]. exact IH.
Qed.

Lemma strip_empty (t : string) : strip t = EmptyString <-> all_space t = true.
Proof.
  unfold strip. split.
  - intros H%lstrip_empty. destruct (rstrip_decomp t) as (ws & Ht & Hws).
    rewrite Ht, all_space_app, H, Hws. done.
  - intros H. by rewrite (rstrip_all_space t H).
Qed.

Lemma blank_split (s : string) :
  blank s = forallb all_space (split_on "," s).
Proof.
  induction s as [|c s IH]; [done|].
  cbn [blank split_on]. destruct (Ascii.eqb c ",") eqn:Ec.
  - simpl. exact IH.
  - pose proof (split_on_nonempty "," s) as Hne.
    destruct (split_on "," s) as [|t ts]; [done|].
    simpl in *. rewrite IH. by rewrite andb_assoc.
Qed.

Lemma filter_nil_inv {B : Type} (P : B -> Prop) `{!forall x, Decision (P x)} (l : list B) :
  filter P l = [] -> forall x, x ∈ l -> ~ P x.
Proof.
  intros Hnil x Hx HP.
  assert (x ∈ filter P l) as Hin by (by apply list_elem_of_filter).
  rewrite Hnil in Hin. by apply elem_of_nil in Hin.
Qed.

(** Nothing is left of a text exactly when it holds commas and white
    space only. *)
Lemma join_themes_empty (s : string) :
  join_themes s = EmptyString <-> blank s = true.
Proof.
  rewrite blank_split, forallb_forall. unfold join_themes. split.
  - intros H%join_tokens_empty; [|apply themes_are_tokens].
    intros t Ht%list_elem_of_In. apply strip_empty.
    destruct (decide (strip t = EmptyString)) as [|Hne]; [done|].
    destruct (filter_nil_inv _ _ H (strip t)); [|done].
    apply list_elem_of_fmap. eauto.
  - intros Hall.
    rewrite (list_find_filter_nil (fun t => t <> EmptyString)); [done|].
    intros t (u & -> & Hu)%list_elem_of_fmap Hne. apply Hne, strip_empty.
    by apply Hall, list_elem_of_In.
Qed.

Lemma themes_of_row_Some (r r' : gmap string cell) :
  themes_of_row r = Some r' <->
  exists s, r !! "Themes:" = Some (CStr s) /\ blank s = false /\
            r' = <["Themes:" := CStr (lower (join_themes s))]> r.
Proof.
  unfold themes_of_row. split.
  - destruct (r !! "Themes:") as [[| |s|]|]; try done. simpl.
    destruct (decide (join_themes s = EmptyString)) as [|Hne]; [done|].
    simpl. intros [= <-]. exists s. split_and!; [done| |done].
    destruct (blank s) eqn:E; [|done]. by apply join_themes_empty in E.
  - intros (s & -> & Hs & ->). simpl.
    rewrite decide_False; [done|].
    intros E%join_themes_empty. congruence.
Qed.

End blank_texts.

(** X15.  On a lyrics table of ASCII texts, a preprocessing that returns a
    table keeps exactly the rows whose 'Themes:' cell is a text with a
    character other than commas and white space: a row with a missing
    cell, or with a text of commas and white space only, is dropped; a
    kept row carries the cleaned, lower-cased text and is otherwise
    unchanged, and the columns of the table are unchanged. *)
Theorem preproc_themes_rows (lyrics_df res : DataFrame) :
  forallb ascii_themes (rows lyrics_df) = true ->
  preproc_themes lyrics_df = Ok res ->
  columns res = columns lyrics_df /\
  length (rows res) <= length (rows lyrics_df) /\
  forall r', r' ∈ rows res <->
    exists r s, r ∈ rows lyrics_df /\
      r !! "Themes:" = Some (CStr s) /\ blank s = false /\
      r' = <["Themes:" := CStr (lower (join_themes s))]> r.
Proof.
  intros _. unfold preproc_themes.
  destruct (get_column lyrics_df "Themes:") as [cells|]; [|done].
  simpl. destruct (str_accessor cells) as [[]|]; [|done].
  simpl. intros [= <-]. simpl. split_and!; [done| |].
  - induction (rows lyrics_df) as [|r rs IH]; [done|].
    change (omap themes_of_row (r :: rs))
      with (match themes_of_row r with
            | Some y => y :: omap themes_of_row rs
            | None => omap themes_of_row rs
            end).
    destruct (themes_of_row r); cbn [length]; lia.
  - intros r'. rewrite elem_of_omap_themes. split.
    + intros (r & Hr & (s & ? & ? & ?)%themes_of_row_Some). by exists r, s.
    + intros (r & s & Hr & ? & ? & ?). exists r. split; [done|].
      apply themes_of_row_Some. by exists s.
Qed.

Lemma preproc_themes_rows_witness :
  exists res,
    preproc_themes lyrics_table = Ok res /\
    columns res = columns lyrics_table /\
    length (rows res) <= length (rows lyrics_table).
Proof.
  assert (preproc_themes lyrics_table
          = Ok (mkFrame ["Band ID"; "Themes:"]
                  [list_to_map [("Band ID", CInt 1);
                                ("Themes:", CStr "war, death, gore")];
                   list_to_map [("Band ID", CInt 4); ("Themes:", CStr "sorrow")]]))
    as E by (vm_compute; reflexivity).
  eexists. split; [exact E|].
  destruct (preproc_themes_rows lyrics_table _ eq_refl E) as (Hcols & Hlen & _).
  split; [exact Hcols | exact Hlen].
Defined.

(** A 'Themes:' column of missing cells only is read as a column of
    numbers, on which [.str] is refused. *)
Example preproc_themes_no_text :
  preproc_themes
    (mkFrame ["Band ID"; "Themes:"]
       [list_to_map [("Band ID", CInt 1); ("Themes:", CFloat NaN)]])
  = Raise AttributeError.
Proof. reflexivity. Qed.

(** ** What the crowd signal depends on *)

(** The edges that touch the target. *)
Lemma complete_similar_bands_incident (similar_artists_df : list edge) (band_id : Z) :
  get_complete_similar_bands
    (filter (fun e => edge_band e = band_id \/ edge_similar e = band_id)
            similar_artists_df) band_id
  = get_complete_similar_bands similar_artists_df band_id.
Proof.
  unfold get_complete_similar_bands. do 3 f_equal.
  - rewrite list_filter_filter. apply list_filter_iff. intros e. tauto.
  - rewrite list_filter_filter. apply list_filter_iff. intros e. tauto.
Qed.

(** X16.  When some edge touches the target, the edges that do not touch
    it have no influence: the call returns the same result, table or
    exception, when the similarity table is cut down to the edges incident
    to the target.  (Without such an edge the table that is cut down has no
    row, and is read with columns of another dtype.) *)
Theorem get_recommendations_incident_edges
    (cosine_similarity_matrix : list cell -> result (list (list fval)))
    (add_geographic_similarity_to_band : DataFrame -> Z -> result DataFrame)
    (ties : gmap string cell -> gmap string cell -> bool)
    (merged_df : DataFrame) (similar_artists_df : list edge) (band_id : Z)
    (genre_weight lyrical_weight similar_weight country_weight : Q)
    (e : edge) :
  e ∈ similar_artists_df ->
  edge_band e = band_id \/ edge_similar e = band_id ->
  get_recommendations cosine_similarity_matrix add_geographic_similarity_to_band ties
    merged_df
    (filter (fun e => edge_band e = band_id \/ edge_similar e = band_id)
            similar_artists_df)
    band_id genre_weight lyrical_weight similar_weight country_weight
  = get_recommendations cosine_similarity_matrix add_geographic_similarity_to_band ties
      merged_df similar_artists_df
      band_id genre_weight lyrical_weight similar_weight country_weight.
Proof.
  intros He Hinc.
  assert (e ∈ filter (fun e => edge_band e = band_id \/ edge_similar e = band_id)
                     similar_artists_df) as Hin
    by (by apply list_elem_of_filter).
  unfold get_recommendations. rewrite complete_similar_bands_incident.
  destruct (filter _ similar_artists_df) as [|e1 l1]; [by apply elem_of_nil in Hin|].
  destruct similar_artists_df as [|e2 l2]; [by apply elem_of_nil in He|].
  done.
Qed.

Lemma get_recommendations_incident_edges_witness :
  get_recommendations all_similar same_country table_order band_catalogue
    (filter (fun e => edge_band e = 1%Z \/ edge_similar e = 1%Z)
            [mkEdge 2 1 (9 # 10); mkEdge 2 3 (1 # 2)])
    1 (1 # 3) (1 # 3) (1 # 3) (1 # 10)
  = get_recommendations all_similar same_country table_order band_catalogue
      [mkEdge 2 1 (9 # 10); mkEdge 2 3 (1 # 2)]
      1 (1 # 3) (1 # 3) (1 # 3) (1 # 10).
Proof.
  apply (get_recommendations_incident_edges all_similar same_country table_order
           band_catalogue [mkEdge 2 1 (9 # 10); mkEdge 2 3 (1 # 2)] 1
           (1 # 3) (1 # 3) (1 # 3) (1 # 10) (mkEdge 2 1 (9 # 10))).
  - left.
  - right. reflexivity.
Defined.

(** X17.  With non-negative scores in the similarity table, the crowd
    signal joined into the candidate table holds finite, non-negative
    values only: never NaN, whatever the identifiers of the candidates. *)
Theorem similar_band_score_nonneg
    (similar_artists_df : list edge) (band_id : Z) (ids : list cell) (c : cell) :
  (forall e, e ∈ similar_artists_df -> (0 <= edge_score e)%Q) ->
  c ∈ similar_band_score
        (get_complete_similar_bands similar_artists_df band_id) ids ->
  exists q, c = CFloat (Num q) /\ (0 <= q)%Q.
Proof.
  intros Hpos (label & -> & _)%list_elem_of_fmap. unfold reindex_score.
  destruct (List.find _ _) as [[k v]|] eqn:E.
  - exists v. split; [done|].
    apply List.find_some in E as [Hin%list_elem_of_In _].
    apply complete_similar_bands_Some in Hin as [(e & He & <- & _) _]. by apply Hpos.
  - exists 0%Q. split; [done|]. lra.
Qed.

Lemma similar_band_score_nonneg_witness :
  exists q, CFloat (Num (9 # 10)) = CFloat (Num q) /\ (0 <= q)%Q.
Proof.
  apply (similar_band_score_nonneg [mkEdge 2 1 (9 # 10)] 1 [CInt 2; CInt 3]).
  - intros e ->%list_elem_of_singleton. simpl. unfold Qle. simpl. lia.
  - vm_compute. left.
Defined.
